(** * Brand and locale resolution, and cache revalidation after mutations

    A shallow embedding of the configuration glue and the mutation handlers
    of the tutorial application:

    - [src/config/brands.ts]: the static brand table and [getCurrentBrand];
    - [src/i18n/config.ts], [src/i18n/request.ts]: the locale tables and the
      request-configuration callback that picks the locale of a request;
    - [src/app/actions.ts]: the server actions [createUser] and
      [deleteUser];
    - [src/app/api/users/route.ts], [src/app/api/users/[id]/route.ts]: the
      REST handlers [GET], [POST] and [DELETE];
    - [src/app/components/LocaleSwitcher.tsx], [src/app/page.tsx]: the
      locale switch of the select and the redirect of the root page.

    JavaScript strings are modelled as [string] (UTF-8 bytes), [undefined]
    and [null] as [None], the brand table as a finite map built from the
    entries of the object literal, exceptions as the [Throws] outcome, and
    the calls a handler makes to the outside ([console.log], [setTimeout],
    [revalidatePath]) as the trace of effects it returns. *)

From Stdlib Require Import ZArith Ascii String.
From stdpp Require Import base strings list gmap pretty.

Local Open Scope Z_scope.

(** ** JavaScript behaviours the sources rely on *)

Module Js.

(** [!!s] for a string: every string but the empty one is truthy. *)
Definition truthy (s : string) : bool := negb (String.eqb s "").

(** [x || d] where [x] is a string or [undefined]. *)
Definition orElse (x : option string) (d : string) : string :=
  match x with
  | Some s => if truthy s then s else d
  | None => d
  end.

(** [s.includes(sub)]: [sub] occurs in [s] at some position. *)
Fixpoint includes (s sub : string) : bool :=
  String.prefix sub s ||
  match s with
  | EmptyString => false
  | String _ s' => includes s' sub
  end.

(** [xs.includes(x)] on an array of strings. *)
Definition arrayIncludes (xs : list string) (x : string) : bool :=
  bool_decide (x ∈ xs).

(** The white space that [String.prototype.trim] removes (WhiteSpace and
    LineTerminator of ECMAScript), as UTF-8: the six ASCII characters
    TAB, LF, VT, FF, CR and SP, the two-byte U+00A0, and the three-byte
    U+1680, U+2000..U+200A, U+2028, U+2029, U+202F, U+205F, U+3000 and
    U+FEFF. *)
Definition ws1 (a : ascii) : bool :=
  let n := nat_of_ascii a in
  ((9 <=? n)%nat && (n <=? 13)%nat) || (n =? 32)%nat.

Definition ws2 (a b : ascii) : bool :=
  (nat_of_ascii a =? 194)%nat && (nat_of_ascii b =? 160)%nat.

Definition ws3 (a b c : ascii) : bool :=
  let x := nat_of_ascii a in
  let y := nat_of_ascii b in
  let z := nat_of_ascii c in
  ((x =? 225) && (y =? 154) && (z =? 128))%nat
  || ((x =? 226) && (y =? 128) &&
      (((128 <=? z) && (z <=? 138)) || (z =? 168) || (z =? 169) || (z =? 175)))%nat
  || ((x =? 226) && (y =? 129) && (z =? 159))%nat
  || ((x =? 227) && (y =? 128) && (z =? 128))%nat
  || ((x =? 239) && (y =? 187) && (z =? 191))%nat.

(** Drops the leading white space; [p2] and [p3] recognise the two-byte
    and three-byte characters in the order their bytes are met. *)
Fixpoint dropWhiteSpace (p2 : ascii → ascii → bool)
    (p3 : ascii → ascii → ascii → bool) (s : string) : string :=
  match s with
  | EmptyString => s
  | String a r =>
      if ws1 a then dropWhiteSpace p2 p3 r
      else
        match r with
        | EmptyString => s
        | String b r2 =>
            if p2 a b then dropWhiteSpace p2 p3 r2
            else
              match r2 with
              | EmptyString => s
              | String c r3 =>
                  if p3 a b c then dropWhiteSpace p2 p3 r3 else s
              end
        end
  end.

Definition trimStart (s : string) : string := dropWhiteSpace ws2 ws3 s.

(** The trailing white space is the leading white space of the reversed
    string, with the bytes of each character met last to first. *)
Definition trimEnd (s : string) : string :=
  String.rev
    (dropWhiteSpace (λ a b, ws2 b a) (λ a b c, ws3 c b a) (String.rev s)).

(** [s.trim()]. *)
Definition trim (s : string) : string := trimEnd (trimStart s).

(** The own enumerable-or-not members every object literal inherits from
    [Object.prototype] (ECMAScript 20.1.3 and Annex B.2.2): reading any of
    them on a plain object yields a function, or for [__proto__] the
    prototype object itself; all of these values are truthy. *)
Definition objectPrototypeMembers : list string :=
  [ "constructor"; "hasOwnProperty"; "isPrototypeOf";
    "propertyIsEnumerable"; "toLocaleString"; "toString"; "valueOf";
    "__proto__"; "__defineGetter__"; "__defineSetter__";
    "__lookupGetter__"; "__lookupSetter__" ].

(** The outcome of evaluating an expression that may throw. *)
Inductive Outcome (A : Type) : Type :=
| Returns (a : A)
| Throws.
Arguments Returns {A} a.
Arguments Throws {A}.

#[export] Instance outcome_ret : MRet Outcome := λ A a, Returns a.
#[export] Instance outcome_bind : MBind Outcome := λ A B f m,
  match m with
  | Returns a => f a
  | Throws => Throws
  end.

(** [s.slice(n)] for [n] within the string: [s] without its first [n]
    bytes. *)
Fixpoint skip (n : nat) (s : string) : string :=
  match n, s with
  | O, _ => s
  | S n', String _ s' => skip n' s'
  | S _, EmptyString => EmptyString
  end.

(** [s.replace(pat, '')] for a string pattern: the first occurrence of
    [pat] in [s] is cut out; [s] is unchanged when [pat] does not occur. *)
Fixpoint removeFirst (s pat : string) : string :=
  if String.prefix pat s then skip (String.length pat) s
  else
    match s with
    | EmptyString => EmptyString
    | String a s' => String a (removeFirst s' pat)
    end.

End Js.

(** ** src/config/brands.ts *)

Module Brands.
Import Js.

Inductive BrandId : Type := BrandA | BrandB | BrandC.

(** The string a [BrandId] is at run time. *)
Definition brandIdString (i : BrandId) : string :=
  match i with
  | BrandA => "brand-a"
  | BrandB => "brand-b"
  | BrandC => "brand-c"
  end.

Record BrandConfig : Type := {
  id : BrandId;
  name : string;
  primaryColor : string;
  secondaryColor : string;
  accentColor : string;
  logo : string;
  defaultLocale : string;
  supportedLocales : list string;
}.

(** The three records of the [brands] object literal. *)
Definition brandA : BrandConfig :=
  {| id := BrandA; name := "Brand A";
     primaryColor := "#3b82f6"; secondaryColor := "#1e40af";
     accentColor := "#60a5fa"; logo := "/logos/brand-a.svg";
     defaultLocale := "en"; supportedLocales := ["en"; "es"; "fr"] |}.

Definition brandB : BrandConfig :=
  {| id := BrandB; name := "Brand B";
     primaryColor := "#10b981"; secondaryColor := "#059669";
     accentColor := "#34d399"; logo := "/logos/brand-b.svg";
     defaultLocale := "en"; supportedLocales := ["en"; "de"; "it"] |}.

Definition brandC : BrandConfig :=
  {| id := BrandC; name := "Brand C";
     primaryColor := "#f59e0b"; secondaryColor := "#d97706";
     accentColor := "#fbbf24"; logo := "/logos/brand-c.svg";
     defaultLocale := "en"; supportedLocales := ["en"; "ja"; "zh"] |}.

(** The entries of the literal, in source order. *)
Definition brandEntries : list (string * BrandConfig) :=
  [ ("brand-a", brandA); ("brand-b", brandB); ("brand-c", brandC) ].

Definition brands : gmap string BrandConfig := list_to_map brandEntries.

(** What a property read [brands[k]] evaluates to: the record stored
    under an own key, a member inherited from [Object.prototype], or
    [undefined]. *)
Inductive BrandValue : Type :=
| Record (b : BrandConfig)
| Inherited (member : string)
| Undefined.

(** [brands[k]] *)
Definition brandsAt (k : string) : BrandValue :=
  match brands !! k with
  | Some b => Record b
  | None =>
      if bool_decide (k ∈ objectPrototypeMembers) then Inherited k
      else Undefined
  end.

(** [v || w] on such values: records and inherited members are truthy. *)
Definition orValue (v w : BrandValue) : BrandValue :=
  match v with
  | Undefined => w
  | _ => v
  end.

(** [getCurrentBrand()], as a function of the value of
    [process.env.NEXT_PUBLIC_BRAND]. *)
Definition getCurrentBrand (NEXT_PUBLIC_BRAND : option string) : BrandValue :=
  let brandId := orElse NEXT_PUBLIC_BRAND "brand-a" in
  orValue (brandsAt brandId) (brandsAt "brand-a").

(** [v.supportedLocales] and [v.defaultLocale]: the field of a record,
    [undefined] on an inherited member, a TypeError on [undefined]. *)
Definition readSupportedLocales (v : BrandValue) : Outcome (option (list string)) :=
  match v with
  | Record b => Returns (Some (supportedLocales b))
  | Inherited _ => Returns None
  | Undefined => Throws
  end.

Definition readDefaultLocale (v : BrandValue) : Outcome (option string) :=
  match v with
  | Record b => Returns (Some (defaultLocale b))
  | Inherited _ => Returns None
  | Undefined => Throws
  end.

End Brands.

(** ** src/i18n/config.ts *)

Module I18nConfig.
Import Js.

Definition allLocales : list string := ["en"; "es"; "fr"; "de"; "it"; "ja"; "zh"].

(** [getBrandLocales()] *)
Definition getBrandLocales (NEXT_PUBLIC_BRAND : option string)
    : Outcome (option (list string)) :=
  let currentBrand := Brands.getCurrentBrand NEXT_PUBLIC_BRAND in
  Brands.readSupportedLocales currentBrand.

Definition locales : list string := allLocales.
Definition defaultLocale : string := "en".

(** The display name and flag of a locale. *)
Record LocaleInfo : Type := { name : string; flag : string }.

(** The entries of the [localeConfig] object literal, in source order. *)
Definition localeConfig : list (string * list (string * LocaleInfo)) :=
  [ ("brand-a",
     [ ("en", {| name := "English"; flag := "🇺🇸" |});
       ("es", {| name := "Español"; flag := "🇪🇸" |});
       ("fr", {| name := "Français"; flag := "🇫🇷" |}) ]);
    ("brand-b",
     [ ("en", {| name := "English"; flag := "🇺🇸" |});
       ("de", {| name := "Deutsch"; flag := "🇩🇪" |});
       ("it", {| name := "Italiano"; flag := "🇮🇹" |}) ]);
    ("brand-c",
     [ ("en", {| name := "English"; flag := "🇺🇸" |});
       ("ja", {| name := "日本語"; flag := "🇯🇵" |});
       ("zh", {| name := "中文"; flag := "🇨🇳" |}) ]) ].

End I18nConfig.

(** ** src/i18n/request.ts *)

Module I18nRequest.
Import Js.

(** The guard [!locale || !brandLocales.includes(locale)]: a missing or
    empty locale short-circuits; otherwise [includes] is called on
    [brandLocales], which throws when that is [undefined]. *)
Definition needsFallback (locale : option string)
    (brandLocales : option (list string)) : Outcome bool :=
  match locale with
  | None => Returns true
  | Some l =>
      if truthy l then
        match brandLocales with
        | Some ls => Returns (negb (arrayIncludes ls l))
        | None => Throws
        end
      else Returns true
  end.

(** The locale the callback computes when both calls of
    [getCurrentBrand()] evaluate to [currentBrand]. *)
Definition resolveLocale (requestLocale : option string)
    (currentBrand : Brands.BrandValue) : Outcome string :=
  let locale := requestLocale in
  brandLocales ← Brands.readSupportedLocales currentBrand;
  fallback ← needsFallback locale brandLocales;
  if (fallback : bool) then
    let brand := currentBrand in
    d ← Brands.readDefaultLocale brand;
    mret (orElse d I18nConfig.defaultLocale)
  else mret (default "" locale).

(** The [locale] field of what the callback given to [getRequestConfig]
    returns, as a function of the environment and of the awaited
    [requestLocale]. *)
Definition requestConfigLocale (NEXT_PUBLIC_BRAND : option string)
    (requestLocale : option string) : Outcome string :=
  let locale := requestLocale in
  brandLocales ← I18nConfig.getBrandLocales NEXT_PUBLIC_BRAND;
  fallback ← needsFallback locale brandLocales;
  if (fallback : bool) then
    let brand := Brands.getCurrentBrand NEXT_PUBLIC_BRAND in
    d ← Brands.readDefaultLocale brand;
    mret (orElse d I18nConfig.defaultLocale)
  else mret (default "" locale).

End I18nRequest.

(** ** Effects of the mutation handlers *)

Module Effects.

(** What a handler does to the outside, in the order it does it; [V] is
    the type of the values logged next to the text. *)
Inductive Effect (V : Type) : Type :=
| ConsoleLog (text : string) (values : list (string * V))
| SetTimeout (ms : Z)
| RevalidatePath (path : string).
Arguments ConsoleLog {V} text values.
Arguments SetTimeout {V} ms.
Arguments RevalidatePath {V} path.

(** A handler run: the trace of its effects and the value it resolves to. *)
Definition Run (V A : Type) : Type := list (Effect V) * A.

#[export] Instance run_ret {V} : MRet (Run V) := λ A a, ([], a).
#[export] Instance run_bind {V} : MBind (Run V) := λ A B f m,
  let '(t1, a) := m in
  let '(t2, b) := f a in
  (t1 ++ t2, b).

Definition emit {V} (e : Effect V) : Run V unit := ([e], tt).
Definition consoleLog {V} (text : string) (values : list (string * V)) : Run V unit :=
  emit (ConsoleLog text values).
Definition sleep {V} (ms : Z) : Run V unit := emit (SetTimeout ms).
Definition revalidatePath {V} (path : string) : Run V unit :=
  emit (RevalidatePath path).

(** The paths a trace revalidates, in call order. *)
Definition revalidations {V} (t : list (Effect V)) : list string :=
  omap (λ e, match e with RevalidatePath p => Some p | _ => None end) t.

(** The set of paths a run marks stale. *)
Definition invalidated {V A} (r : Run V A) : gset string :=
  list_to_set (revalidations r.1).

End Effects.

(** ** src/app/actions.ts *)

Module Actions.
Import Js Effects.

Record UserData : Type := { name : string; email : string }.

Record ActionState : Type := {
  success : bool;
  message : option string;
  error : option string;
  data : option UserData;
}.

(** The entries of a submitted form, in order; the actions read every
    entry as the string they cast it to. *)
Definition FormData : Type := list (string * string).

(** [formData.get(key)]: the first value under [key], or [null]. *)
Definition get (formData : FormData) (key : string) : option string :=
  snd <$> List.find (λ e, String.eqb (fst e) key) formData.

Definition failed (msg : string) : ActionState :=
  {| success := false; message := None; error := Some msg; data := None |}.

(** [createUser(prevState, formData)] *)
Definition createUser (prevState : option ActionState) (formData : FormData)
    : Run string ActionState :=
  let name := get formData "name" in
  let email := get formData "email" in
  match name with
  | None => mret (failed "Name is required")
  | Some name =>
    if negb (truthy name) || (String.length (trim name) =? 0)%nat then
      mret (failed "Name is required")
    else
      match email with
      | None => mret (failed "Valid email is required")
      | Some email =>
        if negb (truthy email) || negb (includes email "@") then
          mret (failed "Valid email is required")
        else
          consoleLog "Creating user:" [("name", name); ("email", email)];;
          sleep 1000;;
          revalidatePath "/users";;
          revalidatePath "/";;
          mret {| success := true;
                  message := Some ("User " +:+ name +:+ " created successfully!");
                  error := None;
                  data := Some {| name := name; email := email |} |}
      end
  end.

(** [deleteUser(userId)] *)
Definition deleteUser (userId : string) : Run string ActionState :=
  if negb (truthy userId) then mret (failed "User ID is required")
  else
    consoleLog ("Deleting user: " +:+ userId) [];;
    sleep 500;;
    revalidatePath "/users";;
    revalidatePath "/";;
    revalidatePath ("/users/" +:+ userId);;
    mret {| success := true;
            message := Some ("User " +:+ userId +:+ " deleted successfully!");
            error := None;
            data := None |}.

End Actions.

(** ** JSON request bodies *)

Module Json.
Import Js.

Section WithNumbers.
(** JSON numbers are IEEE doubles; the handlers only ask whether one is
    truthy (neither zero nor NaN), which [numberTruthy] answers. *)
Context {Number : Type} (numberTruthy : Number → bool).

#[warnings="-register-all"] Inductive Value : Type :=
| Null
| Bool (b : bool)
| Num (n : Number)
| Str (s : string)
| Arr (items : list Value)
| Obj (members : list (string * Value)).

(** [!!v], where [None] is [undefined]. *)
Definition truthyValue (v : option Value) : bool :=
  match v with
  | None | Some Null => false
  | Some (Bool b) => b
  | Some (Num n) => numberTruthy n
  | Some (Str s) => truthy s
  | Some (Arr _) | Some (Obj _) => true
  end.

(** The member [JSON.parse] keeps under [key]: the last one written. *)
Definition member (members : list (string * Value)) (key : string)
    : option Value :=
  snd <$> List.find (λ e, String.eqb (fst e) key) (rev members).

(** [body[key]] for a key that [Object.prototype], [Array.prototype],
    [String.prototype], [Number.prototype] and [Boolean.prototype] do
    not define: a TypeError on [null], the member of an object,
    [undefined] on everything else. *)
Definition property (body : Value) (key : string) : Outcome (option Value) :=
  match body with
  | Null => Throws
  | Obj members => Returns (member members key)
  | _ => Returns None
  end.
End WithNumbers.

Arguments Value : clear implicits.
End Json.

(** ** src/app/api/users/route.ts *)

Module UsersRoute.
Import Js Effects.

Section WithNumbers.
Context {Number : Type} (numberTruthy : Number → bool).
#[local] Abbreviation Value := (Json.Value Number).

Record CreatedUser : Type := {
  id : string;
  name : Value;
  email : Value;
}.

Record Response : Type := {
  status : Z;
  success : bool;
  message : option string;
  error : option string;
  data : option CreatedUser;
}.

Definition failed (msg : string) (code : Z) : Response :=
  {| status := code; success := false; message := None;
     error := Some msg; data := None |}.

(** [const body = await request.json(); const { name, email } = body;]
    where [requestBody] is [None] when the body is not JSON. *)
Definition readBody (requestBody : option Value)
    : Outcome (option Value * option Value) :=
  match requestBody with
  | None => Throws
  | Some body =>
      name ← Json.property body "name";
      email ← Json.property body "email";
      mret (name, email)
  end.

(** [POST(request)], as a function of the parsed request body and of
    what [Date.now()] returns: the effects and the object and status it
    hands to [NextResponse.json], before that serialises the object. *)
Definition POST (now : Z) (requestBody : option Value) : Run Value Response :=
  match readBody requestBody with
  | Throws => mret (failed "Failed to create user" 500)
  | Returns (None, _) | Returns (_, None) =>
      mret (failed "Name and email are required" 400)
  | Returns (Some name, Some email) =>
      if negb (Json.truthyValue numberTruthy (Some name))
         || negb (Json.truthyValue numberTruthy (Some email)) then
        mret (failed "Name and email are required" 400)
      else
        consoleLog "Creating user via API:" [("name", name); ("email", email)];;
        sleep 500;;
        revalidatePath "/users";;
        revalidatePath "/";;
        mret {| status := 201; success := true;
                message := Some "User created successfully";
                error := None;
                data := Some {| id := pretty now; name := name; email := email |} |}
  end.
End WithNumbers.

Record User : Type := {
  userId : string;
  userName : string;
  userEmail : string;
}.

Record ListResponse : Type := {
  listStatus : Z;
  listSuccess : bool;
  listData : list User;
}.

(** [GET()]: the two users of the simulated database. *)
Definition GET : Run string ListResponse :=
  let users :=
    [ {| userId := "1"; userName := "John Doe"; userEmail := "john@example.com" |};
      {| userId := "2"; userName := "Jane Smith"; userEmail := "jane@example.com" |} ] in
  mret {| listStatus := 200; listSuccess := true; listData := users |}.

End UsersRoute.

(** ** src/app/api/users/[id]/route.ts *)

Module UserRoute.
Import Js Effects.

Record Response : Type := {
  status : Z;
  success : bool;
  message : option string;
  error : option string;
}.

(** [DELETE(request, { params })], as a function of the [id] that
    [params] resolves to. *)
Definition DELETE (id : string) : Run string Response :=
  consoleLog ("Deleting user via API: " +:+ id) [];;
  sleep 500;;
  revalidatePath "/users";;
  revalidatePath ("/users/" +:+ id);;
  revalidatePath "/";;
  mret {| status := 200; success := true;
          message := Some ("User " +:+ id +:+ " deleted successfully");
          error := None |}.

Record UserDetail : Type := {
  id : string;
  name : string;
  email : string;
  createdAt : string;
}.

Record DetailResponse : Type := {
  detailStatus : Z;
  detailSuccess : bool;
  detailData : UserDetail;
}.

(** [GET(request, { params })], as a function of the [id] that [params]
    resolves to and of what [new Date().toISOString()] returns. *)
Definition GET (nowISO : string) (id : string) : Run string DetailResponse :=
  let user := {| id := id; name := "John Doe"; email := "john@example.com";
                 createdAt := nowISO |} in
  mret {| detailStatus := 200; detailSuccess := true; detailData := user |}.

End UserRoute.

(** ** src/app/components/LocaleSwitcher.tsx *)

Module LocaleSwitcher.
Import Js.

(** [switchLocale(newLocale)], as a function of what [useLocale()] and
    [usePathname()] return: the path given to [router.push]. *)
Definition switchLocale (locale pathname newLocale : string) : string :=
  let pathWithoutLocale :=
    orElse (Some (removeFirst pathname ("/" +:+ locale))) "/" in
  "/" +:+ newLocale +:+ pathWithoutLocale.

(** The locales offered in the select: [brand.supportedLocales] of the
    current brand. *)
Definition supportedLocales (NEXT_PUBLIC_BRAND : option string)
    : Outcome (option (list string)) :=
  let brand := Brands.getCurrentBrand NEXT_PUBLIC_BRAND in
  Brands.readSupportedLocales brand.

End LocaleSwitcher.

(** ** src/app/page.tsx *)

Module RootPage.

(** The path [RootPage()] redirects to. *)
Definition RootPage : string := "/" +:+ I18nConfig.defaultLocale.

End RootPage.

(** ** The mutation notifier of the specification *)

Module MutationNotifier.

(** Modelled from the spec: the listing route of an entity kind, the
    route of one entity and the home route. The repository has no such
    functions; its handlers write the paths of the kind [users] out. *)
Definition collectionPath (entityKind : string) : string := "/" +:+ entityKind.
Definition detailPath (entityKind entityId : string) : string :=
  "/" +:+ entityKind +:+ "/" +:+ entityId.
Definition rootPath : string := "/".

(** Modelled from the spec: [computeInvalidationPaths], which the
    repository does not define. It always includes the collection listing
    path and the root path, and the single-entity detail path when
    [entityId] is defined. *)
Definition computeInvalidationPaths (entityKind : string)
    (entityId : option string) : gset string :=
  {[ collectionPath entityKind; rootPath ]} ∪
  match entityId with
  | Some i => {[ detailPath entityKind i ]}
  | None => ∅
  end.

End MutationNotifier.

(** * Properties *)

(** ** Strings *)

Lemma truthy_true (s : string) : Js.truthy s = true ↔ s ≠ "".
Proof.
  unfold Js.truthy. rewrite negb_true_iff. apply String.eqb_neq.
Qed.

Lemma truthy_false (s : string) : Js.truthy s = false ↔ s = "".
Proof.
  unfold Js.truthy. rewrite negb_false_iff. apply String.eqb_eq.
Qed.

Lemma length_app (s t : string) :
  String.length (s +:+ t) = (String.length s + String.length t)%nat.
Proof. induction s as [|a s IH]; simpl; [done | by rewrite IH]. Qed.

Lemma length_zero (s : string) : (String.length s =? 0)%nat = true ↔ s = "".
Proof.
  rewrite Nat.eqb_eq. destruct s; simpl; split; intros; done.
Qed.

(** ** The brand table *)

Section BrandTable.
Import Brands.

(** A key of the table comes with its record from the object literal. *)
Lemma brands_lookup_entry (k : string) (b : BrandConfig) :
  brands !! k = Some b → (k, b) ∈ brandEntries.
Proof. unfold brands. apply elem_of_list_to_map_2. Qed.

(** A property of keys and records holds on the table when it holds on
    every entry of the literal. *)
Lemma brands_forall (P : string → BrandConfig → Prop) :
  Forall (λ e, P e.1 e.2) brandEntries →
  ∀ k b, brands !! k = Some b → P k b.
Proof.
  intros HP k b Hk. apply brands_lookup_entry in Hk.
  rewrite Forall_forall in HP. exact (HP (k, b) Hk).
Qed.

(** The record the fallback [brands['brand-a']] reads. *)
Lemma brandsAt_default :
  brands !! "brand-a" = Some brandA ∧ brandsAt "brand-a" = Record brandA.
Proof. split; reflexivity. Qed.

Lemma brandsAt_key (k : string) (b : BrandConfig) :
  brands !! k = Some b → brandsAt k = Record b.
Proof. intros Hk. unfold brandsAt. by rewrite Hk. Qed.

Lemma brandsAt_unknown (k : string) :
  brands !! k = None → k ∉ Js.objectPrototypeMembers → brandsAt k = Undefined.
Proof.
  intros Hk Hp. unfold brandsAt. rewrite Hk.
  by rewrite bool_decide_eq_false_2.
Qed.

Lemma brandsAt_inherited (k : string) :
  brands !! k = None → k ∈ Js.objectPrototypeMembers → brandsAt k = Inherited k.
Proof.
  intros Hk Hp. unfold brandsAt. rewrite Hk.
  by rewrite bool_decide_eq_true_2.
Qed.

(** No key of the table is empty, so [brandId] is the key itself. *)
Lemma brands_key_truthy (k : string) (b : BrandConfig) :
  brands !! k = Some b → Js.truthy k = true.
Proof.
  revert k b. apply (brands_forall (λ k _, Js.truthy k = true)).
  repeat constructor.
Qed.

(** An unset or empty NEXT_PUBLIC_BRAND selects the default brand. *)
Lemma getCurrentBrand_unset :
  getCurrentBrand None = Record brandA ∧
  getCurrentBrand (Some "") = Record brandA.
Proof. split; reflexivity. Qed.

(** A name that is neither a key of the table nor inherited from
    [Object.prototype] selects the default brand. *)
Lemma getCurrentBrand_unknown (k : string) :
  brands !! k = None → k ∉ Js.objectPrototypeMembers →
  getCurrentBrand (Some k) = Record brandA.
Proof.
  intros Hk Hp. unfold getCurrentBrand, Js.orElse.
  destruct (Js.truthy k); [|reflexivity].
  by rewrite (brandsAt_unknown k Hk Hp).
Qed.

Lemma getCurrentBrand_unknown_witness :
  getCurrentBrand (Some "nonexistent-brand") = Record brandA.
Proof.
  apply getCurrentBrand_unknown; [reflexivity | compute_done].
Defined.

(** A name inherited from [Object.prototype] selects the inherited member:
    none of these names is a key of the table, and none is empty. *)
Lemma getCurrentBrand_inherited (k : string) :
  k ∈ Js.objectPrototypeMembers →
  brands !! k = None ∧ getCurrentBrand (Some k) = Inherited k.
Proof.
  revert k. apply Forall_forall. repeat constructor.
Qed.

(** [getCurrentBrand] never yields [undefined]. *)
Lemma getCurrentBrand_defined (env : option string) :
  getCurrentBrand env ≠ Undefined.
Proof.
  unfold getCurrentBrand.
  destruct (brandsAt (Js.orElse env "brand-a")); discriminate.
Qed.

(** C4: every record of the configured brand table has a non-empty list
    of supported locales, and its default locale is one of them. *)
Theorem brands_defaultLocale_supported (k : string) (b : BrandConfig) :
  brands !! k = Some b →
  supportedLocales b ≠ [] ∧ defaultLocale b ∈ supportedLocales b.
Proof.
  revert k b.
  apply (brands_forall
           (λ _ b, supportedLocales b ≠ [] ∧ defaultLocale b ∈ supportedLocales b)).
  repeat constructor; simpl; try discriminate; compute_done.
Qed.

Lemma brands_defaultLocale_supported_witness :
  supportedLocales brandC ≠ [] ∧ defaultLocale brandC ∈ supportedLocales brandC.
Proof. apply (brands_defaultLocale_supported "brand-c"). reflexivity. Defined.

(** Under a key of the table the first read succeeds. *)
Lemma getCurrentBrand_lookup (k : string) (b : BrandConfig) :
  brands !! k = Some b → getCurrentBrand (Some k) = Record b.
Proof.
  intros Hk. unfold getCurrentBrand, Js.orElse.
  rewrite (brands_key_truthy k b Hk), (brandsAt_key k b Hk). reflexivity.
Qed.

(** C7: for every key [k] of the configured brand table, [getCurrentBrand]
    under NEXT_PUBLIC_BRAND = [k] returns the record stored under [k] as it
    is, and the [id] of that record is [k]. *)
Theorem getCurrentBrand_key (k : string) (b : BrandConfig) :
  brands !! k = Some b →
  getCurrentBrand (Some k) = Record b ∧ brandIdString (id b) = k.
Proof.
  intros Hk. split; [by apply getCurrentBrand_lookup|].
  revert k b Hk.
  apply (brands_forall (λ k b, brandIdString (id b) = k)).
  repeat constructor.
Qed.

Lemma getCurrentBrand_key_witness :
  getCurrentBrand (Some "brand-b") = Record brandB ∧
  brandIdString (id brandB) = "brand-b".
Proof. apply (getCurrentBrand_key "brand-b"). reflexivity. Defined.

(** C3 (the input on which the code departs from it): "constructor" is
    not a key of the brand table, yet under NEXT_PUBLIC_BRAND =
    "constructor" the read [brands[brandId]] finds the member every object
    inherits, which is truthy, so [getCurrentBrand] returns it and never
    reaches the fallback to the default brand. The value has no
    [supportedLocales], on which the request callback then throws. *)
Theorem getCurrentBrand_constructor :
  brands !! "constructor" = None ∧
  getCurrentBrand (Some "constructor") = Inherited "constructor" ∧
  getCurrentBrand (Some "constructor") ≠ Record brandA ∧
  I18nRequest.requestConfigLocale (Some "constructor") (Some "en") = Js.Throws.
Proof. repeat split; try reflexivity. discriminate. Qed.

End BrandTable.

(** ** Locale resolution *)

Section LocaleResolution.
Import Js Brands I18nRequest.

(** The callback reads the current brand twice and gets the same value. *)
Lemma requestConfigLocale_resolveLocale (env requested : option string) :
  requestConfigLocale env requested = resolveLocale requested (getCurrentBrand env).
Proof. reflexivity. Qed.

Lemma orElse_truthy (s d : string) : s ≠ "" → orElse (Some s) d = s.
Proof. intros Hs. unfold orElse. by rewrite (proj2 (truthy_true s) Hs). Qed.

Lemma orElse_falsy (x : option string) (d : string) :
  x = None ∨ x = Some "" → orElse x d = d.
Proof. intros [-> | ->]; reflexivity. Qed.

Lemma orElse_nonempty (x : option string) (d : string) :
  d ≠ "" → orElse x d ≠ "".
Proof.
  intros Hd. destruct x as [s|]; simpl; [|done].
  destruct (truthy s) eqn:Hs; [by apply truthy_true | done].
Qed.

Lemma arrayIncludes_true (xs : list string) (x : string) :
  arrayIncludes xs x = true ↔ x ∈ xs.
Proof. unfold arrayIncludes. apply bool_decide_eq_true. Qed.

(** On a brand record the callback takes the requested locale when it is
    truthy and listed, and the truthy one of the two defaults otherwise. *)
Lemma resolveLocale_record (b : BrandConfig) (requested : option string) :
  resolveLocale requested (Record b) =
  Returns
    match requested with
    | Some l =>
        if truthy l && arrayIncludes (supportedLocales b) l then l
        else orElse (Some (defaultLocale b)) I18nConfig.defaultLocale
    | None => orElse (Some (defaultLocale b)) I18nConfig.defaultLocale
    end.
Proof.
  destruct requested as [l|]; [|reflexivity].
  unfold resolveLocale, needsFallback. simpl.
  destruct (truthy l); [|reflexivity].
  destruct (arrayIncludes (supportedLocales b) l); reflexivity.
Qed.

Lemma resolveLocale_listed (b : BrandConfig) (l : string) :
  l ≠ "" → l ∈ supportedLocales b →
  resolveLocale (Some l) (Record b) = Returns l.
Proof.
  intros Hl Hin. rewrite resolveLocale_record.
  by rewrite (proj2 (truthy_true l) Hl), (proj2 (arrayIncludes_true _ l) Hin).
Qed.

Lemma resolveLocale_fallback (b : BrandConfig) (requested : option string) :
  (∀ l, requested = Some l → l = "" ∨ l ∉ supportedLocales b) →
  resolveLocale requested (Record b) =
  Returns (orElse (Some (defaultLocale b)) I18nConfig.defaultLocale).
Proof.
  intros Hr. rewrite resolveLocale_record.
  destruct requested as [l|]; [|reflexivity].
  destruct (truthy l) eqn:Ht; [|reflexivity].
  destruct (arrayIncludes (supportedLocales b) l) eqn:Hi; [|reflexivity].
  apply truthy_true in Ht. apply arrayIncludes_true in Hi.
  destruct (Hr l eq_refl); done.
Qed.

(** A record that lists the empty string or defaults to it, which the
    brand table does not hold, shows the two guards of the callback: the
    empty request counts as absent although [b1] lists it, and the empty
    default of [b2] gives way to the global default. *)
Lemma resolveLocale_empty_string_records :
  let b1 := {| id := BrandA; name := "Brand A"; primaryColor := "#3b82f6";
               secondaryColor := "#1e40af"; accentColor := "#60a5fa";
               logo := "/logos/brand-a.svg";
               defaultLocale := "en"; supportedLocales := ["en"; ""] |} in
  let b2 := {| id := BrandA; name := "Brand A"; primaryColor := "#3b82f6";
               secondaryColor := "#1e40af"; accentColor := "#60a5fa";
               logo := "/logos/brand-a.svg";
               defaultLocale := ""; supportedLocales := ["en"; ""] |} in
  ("" ∈ supportedLocales b1 ∧
   resolveLocale (Some "") (Record b1) = Returns "en" ∧
   resolveLocale (Some "") (Record b1) ≠ Returns "") ∧
  (("fr" ∉ supportedLocales b2) ∧
   resolveLocale (Some "fr") (Record b2) = Returns "en" ∧
   resolveLocale (Some "fr") (Record b2) ≠ Returns (defaultLocale b2)).
Proof.
  simpl. repeat split; try reflexivity; try discriminate; compute_done.
Qed.

(** On any record, configured or not: a request that is defined, non-empty
    and listed is returned unchanged; otherwise the callback returns the
    default locale of the record when that is non-empty, and the global
    default when it is empty. *)
Lemma resolveLocale_any_record (b : BrandConfig) (requested : option string) :
  (∀ l, requested = Some l → l ≠ "" → l ∈ supportedLocales b →
        resolveLocale requested (Record b) = Returns l) ∧
  ((∀ l, requested = Some l → l = "" ∨ l ∉ supportedLocales b) →
   (defaultLocale b ≠ "" →
    resolveLocale requested (Record b) = Returns (defaultLocale b)) ∧
   (defaultLocale b = "" →
    resolveLocale requested (Record b) = Returns I18nConfig.defaultLocale)).
Proof.
  split.
  - intros l -> Hl Hin. by apply resolveLocale_listed.
  - intros Hr. rewrite (resolveLocale_fallback b requested Hr). split.
    + intros Hd. by rewrite orElse_truthy.
    + intros ->. reflexivity.
Qed.

Lemma resolveLocale_any_record_witness :
  resolveLocale (Some "es") (Record brandA) = Returns "es" ∧
  resolveLocale (Some "de") (Record brandA) = Returns "en" ∧
  resolveLocale None (Record brandA) = Returns "en".
Proof.
  split; [|split].
  - apply (proj1 (resolveLocale_any_record brandA (Some "es")) "es");
      [reflexivity | discriminate | compute_done].
  - refine (proj1 (proj2 (resolveLocale_any_record brandA (Some "de")) _) _);
      [|simpl; discriminate].
    intros l [= <-]. right. compute_done.
  - refine (proj1 (proj2 (resolveLocale_any_record brandA None) _) _);
      [|simpl; discriminate].
    intros l [=].
Defined.

(** The callback has no brand argument: the record it works on is the one
    [getCurrentBrand] reads from the table, so it is a configured one. *)
Lemma getCurrentBrand_record_configured (env : option string) (b : BrandConfig) :
  getCurrentBrand env = Record b → ∃ k, brands !! k = Some b.
Proof.
  unfold getCurrentBrand, brandsAt at 1.
  destruct (brands !! orElse env "brand-a") as [b'|] eqn:Hk; simpl.
  - intros [= <-]. eauto.
  - case_bool_decide; simpl; [done|]. intros [= <-]. by exists "brand-a".
Qed.

(** No configured record lists the empty string or defaults to it. *)
Lemma brands_locales_truthy (k : string) (b : BrandConfig) :
  brands !! k = Some b →
  defaultLocale b ≠ "" ∧ ∀ l, l ∈ supportedLocales b → l ≠ "".
Proof.
  revert k b.
  apply (brands_forall
           (λ _ b, defaultLocale b ≠ "" ∧ ∀ l, l ∈ supportedLocales b → l ≠ "")).
  repeat apply Forall_cons_2; [.. | apply Forall_nil_2]; simpl;
    (split; [discriminate|]); intros l; rewrite !elem_of_cons, elem_of_nil;
    intros [-> | [-> | [-> | []]]]; discriminate.
Qed.

(** C2: for every brand record [b] the callback can work on, that is,
    every record [getCurrentBrand] returns, and every requested locale: if
    the request is defined and a member of [b.supportedLocales], the
    callback returns it unchanged; otherwise, the request being absent or
    not a member, it returns [b.defaultLocale]. *)
Theorem resolveLocale_reachable (env : option string) (b : BrandConfig)
    (requested : option string) :
  getCurrentBrand env = Record b →
  requestConfigLocale env requested = resolveLocale requested (Record b) ∧
  (∀ l, requested = Some l → l ∈ supportedLocales b →
        resolveLocale requested (Record b) = Returns l) ∧
  ((∀ l, requested = Some l → l ∉ supportedLocales b) →
   resolveLocale requested (Record b) = Returns (defaultLocale b)).
Proof.
  intros Hb.
  destruct (getCurrentBrand_record_configured env b Hb) as (k & Hk).
  destruct (brands_locales_truthy k b Hk) as [Hd Hs].
  split; [by rewrite requestConfigLocale_resolveLocale, Hb|]. split.
  - intros l -> Hl. apply resolveLocale_listed; [by apply Hs | done].
  - intros Hr. rewrite resolveLocale_fallback.
    + by rewrite orElse_truthy.
    + intros l Hl. right. by apply Hr.
Qed.

Lemma resolveLocale_reachable_witness :
  requestConfigLocale None (Some "es") = Returns "es" ∧
  requestConfigLocale (Some "brand-c") (Some "es") = Returns "en" ∧
  requestConfigLocale (Some "brand-b") None = Returns "en".
Proof.
  split; [|split].
  - destruct (resolveLocale_reachable None brandA (Some "es") eq_refl)
      as (-> & H & _).
    apply (H "es"); [reflexivity | compute_done].
  - destruct (resolveLocale_reachable (Some "brand-c") brandC (Some "es") eq_refl)
      as (-> & _ & H).
    apply H. intros l [= <-]. compute_done.
  - destruct (resolveLocale_reachable (Some "brand-b") brandB None eq_refl)
      as (-> & _ & H).
    apply H. intros l [=].
Defined.

(** C5: for every record [b] of the configured brand table and every
    requested locale, defined or not, the callback returns a locale, and
    that locale is a member of [b.supportedLocales]; under
    NEXT_PUBLIC_BRAND = [k] this is the locale of the request. *)
Theorem resolveLocale_supported (k : string) (b : BrandConfig)
    (requested : option string) :
  brands !! k = Some b →
  ∃ l, resolveLocale requested (Record b) = Returns l ∧
       requestConfigLocale (Some k) requested = Returns l ∧
       l ∈ supportedLocales b.
Proof.
  intros Hk.
  rewrite requestConfigLocale_resolveLocale.
  rewrite (getCurrentBrand_lookup k b Hk).
  rewrite resolveLocale_record.
  eexists. split; [reflexivity|]. split; [reflexivity|].
  assert (Hd : orElse (Some (defaultLocale b)) I18nConfig.defaultLocale
               ∈ supportedLocales b).
  { revert k b Hk.
    apply (brands_forall
             (λ _ b, orElse (Some (defaultLocale b)) I18nConfig.defaultLocale
                     ∈ supportedLocales b)).
    repeat constructor; compute_done. }
  destruct requested as [l|]; [|exact Hd].
  destruct (truthy l); [|exact Hd].
  destruct (arrayIncludes (supportedLocales b) l) eqn:Hi; [|exact Hd].
  by apply arrayIncludes_true.
Qed.

Lemma resolveLocale_supported_witness :
  ∃ l, resolveLocale (Some "pt") (Record brandC) = Returns l ∧
       requestConfigLocale (Some "brand-c") (Some "pt") = Returns l ∧
       l ∈ supportedLocales brandC.
Proof. apply (resolveLocale_supported "brand-c"). reflexivity. Defined.

(** C6: under NEXT_PUBLIC_BRAND = "brand-b" the current brand is the
    brand-b record, whose supported locales are en, de and it; "fr" is not
    one of them, and the locale of a request for "fr" is "en", the default
    locale of brand-b. *)
Theorem brand_b_request_fr :
  getCurrentBrand (Some "brand-b") = Record brandB ∧
  supportedLocales brandB = ["en"; "de"; "it"] ∧
  ("fr" ∉ supportedLocales brandB) ∧
  defaultLocale brandB = "en" ∧
  resolveLocale (Some "fr") (getCurrentBrand (Some "brand-b")) = Returns "en" ∧
  requestConfigLocale (Some "brand-b") (Some "fr") = Returns "en".
Proof.
  repeat split; try reflexivity. compute_done.
Qed.

(** On a brand record the callback always returns a locale that is not
    empty; [brand.defaultLocale || defaultLocale] is "en" whenever the
    brand default is absent or empty, so a fallback on a record with an
    empty default locale returns the global default "en". *)
Lemma resolveLocale_nonempty (b : BrandConfig) (requested : option string) :
  (∃ l, resolveLocale requested (Record b) = Returns l ∧ l ≠ "") ∧
  (∀ d, d = None ∨ d = Some "" → orElse d I18nConfig.defaultLocale = "en") ∧
  (defaultLocale b = "" →
   (∀ l, requested = Some l → l = "" ∨ l ∉ supportedLocales b) →
   resolveLocale requested (Record b) = Returns "en").
Proof.
  split; [|split].
  - rewrite resolveLocale_record. eexists. split; [reflexivity|].
    destruct requested as [l|]; [|by apply orElse_nonempty].
    destruct (truthy l) eqn:Ht; [|by apply orElse_nonempty].
    destruct (arrayIncludes (supportedLocales b) l);
      [by apply truthy_true | by apply orElse_nonempty].
  - intros d Hd. by apply orElse_falsy.
  - intros Hd Hr. rewrite (resolveLocale_fallback b requested Hr), Hd.
    reflexivity.
Qed.

Lemma resolveLocale_nonempty_witness :
  let b := {| id := BrandB; name := "Brand B"; primaryColor := "#10b981";
              secondaryColor := "#059669"; accentColor := "#34d399";
              logo := "/logos/brand-b.svg";
              defaultLocale := ""; supportedLocales := ["en"; "de"; "it"] |} in
  resolveLocale (Some "fr") (Record b) = Returns "en".
Proof.
  intros b.
  refine (proj2 (proj2 (resolveLocale_nonempty b (Some "fr"))) _ _);
    [reflexivity|].
  intros l [= <-]. right. compute_done.
Defined.

(** C10 (the input on which the code departs from it): under
    NEXT_PUBLIC_BRAND = "constructor" the current brand is the member every
    object inherits, which has neither [defaultLocale] nor
    [supportedLocales]. With no requested locale the callback still
    returns the global default "en"; with the requested locale "fr" it
    calls [includes] on the absent list and throws, so it returns no
    locale at all. *)
Theorem requestConfigLocale_absent_default :
  getCurrentBrand (Some "constructor") = Inherited "constructor" ∧
  readDefaultLocale (getCurrentBrand (Some "constructor")) = Returns None ∧
  readSupportedLocales (getCurrentBrand (Some "constructor")) = Returns None ∧
  requestConfigLocale (Some "constructor") None = Returns "en" ∧
  requestConfigLocale (Some "constructor") (Some "") = Returns "en" ∧
  requestConfigLocale (Some "constructor") (Some "fr") = Throws.
Proof. repeat split; reflexivity. Qed.

End LocaleResolution.

(** ** Revalidation after mutations *)

Section Revalidation.
Import Js Effects MutationNotifier.

(** *** The paths of the notifier *)

Lemma detailPath_inj (kind i j : string) :
  detailPath kind i = detailPath kind j → i = j.
Proof.
  unfold detailPath. intros H.
  by repeat apply String.app_inj in H.
Qed.

Lemma detailPath_length (kind i : string) :
  String.length (detailPath kind i) =
  (2 + String.length kind + String.length i)%nat.
Proof. unfold detailPath. rewrite !length_app. simpl. lia. Qed.

Lemma detailPath_not_collectionPath (kind i : string) :
  detailPath kind i ≠ collectionPath kind.
Proof.
  intros H. apply (f_equal String.length) in H.
  rewrite detailPath_length in H. unfold collectionPath in H.
  rewrite length_app in H. simpl in H. lia.
Qed.

Lemma detailPath_not_rootPath (kind i : string) :
  detailPath kind i ≠ rootPath.
Proof.
  intros H. apply (f_equal String.length) in H.
  rewrite detailPath_length in H. simpl in H. lia.
Qed.

Lemma elem_of_computeInvalidationPaths (kind : string) (id : option string)
    (p : string) :
  p ∈ computeInvalidationPaths kind id ↔
  p = collectionPath kind ∨ p = rootPath ∨
  ∃ i, id = Some i ∧ p = detailPath kind i.
Proof.
  unfold computeInvalidationPaths.
  rewrite elem_of_union, elem_of_union, !elem_of_singleton.
  destruct id as [i|].
  - rewrite elem_of_singleton. split.
    + intros [[-> | ->] | ->]; eauto 6.
    + intros [-> | [-> | (j & [= <-] & ->)]]; auto.
  - rewrite elem_of_empty. split.
    + intros [[-> | ->] | []]; auto.
    + intros [-> | [-> | (j & [=] & _)]]; auto.
Qed.

(** *** What each handler does *)

(** [createUser] either rejects the form without any effect, or logs,
    waits, revalidates the listing and the home page and succeeds. *)
Lemma createUser_cases (prevState : option Actions.ActionState)
    (formData : Actions.FormData) :
  (∃ msg, Actions.createUser prevState formData = ([], Actions.failed msg)
          ∧ ((Actions.get formData "name" = None ∨
              ∃ n, Actions.get formData "name" = Some n ∧ trim n = "") ∨
             (Actions.get formData "email" = None ∨
              ∃ e, Actions.get formData "email" = Some e ∧
                   includes e "@" = false))) ∨
  (∃ n e,
     Actions.get formData "name" = Some n ∧ trim n ≠ "" ∧
     Actions.get formData "email" = Some e ∧ includes e "@" = true ∧
     Actions.createUser prevState formData =
     ([ConsoleLog "Creating user:" [("name", n); ("email", e)];
       SetTimeout 1000; RevalidatePath "/users"; RevalidatePath "/"],
      {| Actions.success := true;
         Actions.message := Some ("User " +:+ n +:+ " created successfully!");
         Actions.error := None;
         Actions.data := Some {| Actions.name := n; Actions.email := e |} |})).
Proof.
  unfold Actions.createUser.
  destruct (Actions.get formData "name") as [n|]; [|left; eauto 6].
  destruct (truthy n) eqn:Hn; simpl.
  2:{ apply truthy_false in Hn as ->. left. eexists. split; [done|].
      left. right. by exists "". }
  destruct (String.length (trim n) =? 0)%nat eqn:Ht.
  { apply length_zero in Ht. left. eexists. split; [done|]. left. eauto. }
  assert (trim n ≠ "") as Hne.
  { intros Hz. apply length_zero in Hz. congruence. }
  destruct (Actions.get formData "email") as [e|]; [|left; eauto 6].
  destruct (truthy e) eqn:He; simpl.
  2:{ apply truthy_false in He as ->. left. eexists. split; [done|].
      right. right. by exists "". }
  destruct (includes e "@") eqn:Hi; simpl.
  - right. exists n, e. done.
  - left. eexists. split; [done|]. right. eauto.
Qed.

(** [deleteUser] rejects the empty id without any effect, and otherwise
    revalidates the listing, the home page and the page of the user. *)
Lemma deleteUser_empty :
  Actions.deleteUser "" = ([], Actions.failed "User ID is required").
Proof. reflexivity. Qed.

Lemma deleteUser_trace (userId : string) :
  userId ≠ "" →
  (Actions.deleteUser userId).1 =
  [ConsoleLog ("Deleting user: " +:+ userId) []; SetTimeout 500;
   RevalidatePath "/users"; RevalidatePath "/";
   RevalidatePath ("/users/" +:+ userId)].
Proof.
  intros Hu. unfold Actions.deleteUser.
  by rewrite (proj2 (truthy_true userId) Hu).
Qed.

Section WithNumbers.
Context {Number : Type} (numberTruthy : Number → bool).

(** [POST] answers 400 or 500 without any effect, or logs, waits,
    revalidates the listing and the home page and answers 201. *)
Lemma POST_cases (now : Z) (requestBody : option (Json.Value Number)) :
  (∃ msg code, UsersRoute.POST numberTruthy now requestBody =
               ([], UsersRoute.failed msg code) ∧ (code = 400 ∨ code = 500)) ∨
  (∃ n e r,
     UsersRoute.POST numberTruthy now requestBody =
     ([ConsoleLog "Creating user via API:" [("name", n); ("email", e)];
       SetTimeout 500; RevalidatePath "/users"; RevalidatePath "/"], r) ∧
     UsersRoute.status r = 201 ∧ UsersRoute.success r = true).
Proof.
  unfold UsersRoute.POST.
  destruct (UsersRoute.readBody requestBody) as [[[n|] [e|]]|];
    try (left; eauto 6; fail).
  destruct (Json.truthyValue numberTruthy (Some n)),
    (Json.truthyValue numberTruthy (Some e)); simpl;
    try (left; eauto 6; fail).
  right. exists n, e. eexists. done.
Qed.

End WithNumbers.

(** *** The handlers against the notifier *)

Lemma invalidated_listing_home {V A : Type} (t : list (Effect V)) (a : A) :
  revalidations t = ["/users"; "/"] →
  invalidated (t, a) = computeInvalidationPaths "users" None.
Proof.
  intros Ht. unfold invalidated. simpl. rewrite Ht.
  apply set_eq. intros p.
  rewrite elem_of_computeInvalidationPaths, elem_of_list_to_set, !elem_of_cons,
    elem_of_nil.
  change (collectionPath "users") with "/users". change rootPath with "/".
  split.
  - intros [-> | [-> | []]]; auto.
  - intros [-> | [-> | (i & [=] & _)]]; auto.
Qed.

Lemma invalidated_listing_home_detail {V A : Type} (t : list (Effect V))
    (a : A) (q1 q2 q3 : string) (i : string) :
  revalidations t = [q1; q2; q3] →
  [q1; q2; q3] ≡ₚ ["/users"; "/"; "/users/" +:+ i] →
  invalidated (t, a) = computeInvalidationPaths "users" (Some i).
Proof.
  intros Ht Hp. unfold invalidated. simpl. rewrite Ht.
  apply set_eq. intros p.
  rewrite elem_of_computeInvalidationPaths, elem_of_list_to_set, Hp,
    !elem_of_cons, elem_of_nil.
  change (collectionPath "users") with "/users". change rootPath with "/".
  change (detailPath "users") with (λ j, "/users/" +:+ j).
  split.
  - intros [-> | [-> | [-> | []]]]; eauto 6.
  - intros [-> | [-> | (j & [= <-] & ->)]]; auto.
Qed.

Lemma invalidated_createUser (prevState : option Actions.ActionState)
    (formData : Actions.FormData) :
  Actions.success (Actions.createUser prevState formData).2 = true →
  invalidated (Actions.createUser prevState formData) =
  computeInvalidationPaths "users" None.
Proof.
  destruct (createUser_cases prevState formData)
    as [(msg & -> & _) | (n & e & _ & _ & _ & _ & ->)]; [discriminate|].
  intros _. by apply invalidated_listing_home.
Qed.

Lemma invalidated_deleteUser (userId : string) :
  userId ≠ "" →
  invalidated (Actions.deleteUser userId) =
  computeInvalidationPaths "users" (Some userId).
Proof.
  intros Hu. pose proof (deleteUser_trace userId Hu) as Ht.
  destruct (Actions.deleteUser userId) as [t a]. simpl in Ht. subst t.
  by eapply invalidated_listing_home_detail.
Qed.

Lemma invalidated_DELETE (id : string) :
  invalidated (UserRoute.DELETE id) =
  computeInvalidationPaths "users" (Some id).
Proof.
  eapply invalidated_listing_home_detail; [reflexivity|].
  apply Permutation_skip, Permutation_swap.
Qed.

Lemma invalidated_POST {Number : Type} (numberTruthy : Number → bool)
    (now : Z) (requestBody : option (Json.Value Number)) :
  UsersRoute.success (UsersRoute.POST numberTruthy now requestBody).2 = true →
  invalidated (UsersRoute.POST numberTruthy now requestBody) =
  computeInvalidationPaths "users" None.
Proof.
  destruct (POST_cases numberTruthy now requestBody)
    as [(msg & code & -> & _) | (n & e & r & -> & _ & _)]; [discriminate|].
  intros _. by apply invalidated_listing_home.
Qed.

(** C1: for every entity kind and entity id, the invalidation set contains
    the collection listing path of the kind and the root path, and it
    contains a single-entity detail path exactly when that entity id is
    given; for "users" and "42" it is the set of "/users", "/users/42" and
    "/", and for "users" without an id the set of "/users" and "/". These
    are the sets the handlers of the repository revalidate: [deleteUser]
    and [DELETE] that of their user id, a successful [createUser] and
    [POST] that of no id. *)
Theorem computeInvalidationPaths_policy :
  (∀ kind id,
     collectionPath kind ∈ computeInvalidationPaths kind id ∧
     rootPath ∈ computeInvalidationPaths kind id ∧
     ∀ i, detailPath kind i ∈ computeInvalidationPaths kind id ↔ id = Some i) ∧
  computeInvalidationPaths "users" (Some "42") = {[ "/users"; "/users/42"; "/" ]} ∧
  computeInvalidationPaths "users" None = {[ "/users"; "/" ]} ∧
  (∀ userId, userId ≠ "" →
     invalidated (Actions.deleteUser userId) =
     computeInvalidationPaths "users" (Some userId)) ∧
  (∀ id, invalidated (UserRoute.DELETE id) =
         computeInvalidationPaths "users" (Some id)) ∧
  (∀ prevState formData,
     Actions.success (Actions.createUser prevState formData).2 = true →
     invalidated (Actions.createUser prevState formData) =
     computeInvalidationPaths "users" None) ∧
  (∀ Number (numberTruthy : Number → bool) now requestBody,
     UsersRoute.success (UsersRoute.POST numberTruthy now requestBody).2 = true →
     invalidated (UsersRoute.POST numberTruthy now requestBody) =
     computeInvalidationPaths "users" None).
Proof.
  split; [|split; [|split; [|split; [|split; [|split]]]]].
  - intros kind id. rewrite !elem_of_computeInvalidationPaths.
    split; [auto|]. split; [auto|].
    intros i. rewrite elem_of_computeInvalidationPaths. split.
    + intros [H | [H | (j & -> & H)]].
      * by apply detailPath_not_collectionPath in H.
      * by apply detailPath_not_rootPath in H.
      * by apply detailPath_inj in H as ->.
    + intros ->. eauto.
  - compute_done.
  - compute_done.
  - exact invalidated_deleteUser.
  - exact invalidated_DELETE.
  - exact invalidated_createUser.
  - intros Number. exact invalidated_POST.
Qed.

Lemma computeInvalidationPaths_policy_witness :
  invalidated (Actions.deleteUser "42") = {[ "/users"; "/users/42"; "/" ]} ∧
  invalidated (Actions.createUser None [("name", "Ann"); ("email", "ann@example.com")])
  = {[ "/users"; "/" ]}.
Proof.
  destruct computeInvalidationPaths_policy
    as (_ & <- & <- & Hdelete & _ & Hcreate & _).
  split; [apply Hdelete; discriminate | apply Hcreate; reflexivity].
Defined.

(** C8: the invalidation set is a function of the entity kind and the
    entity id alone: equal inputs give equal sets. Nothing else the
    handlers can read reaches the paths they revalidate: [createUser]
    revalidates the same paths whatever the previous action state, and
    [POST] the same paths whatever [Date.now()] returns. *)
Theorem invalidation_deterministic :
  (∀ kind kind' id id',
     kind = kind' → id = id' →
     computeInvalidationPaths kind id = computeInvalidationPaths kind' id') ∧
  (∀ prevState prevState' formData,
     (Actions.createUser prevState formData).1 =
     (Actions.createUser prevState' formData).1 ∧
     invalidated (Actions.createUser prevState formData) =
     invalidated (Actions.createUser prevState' formData)) ∧
  (∀ Number (numberTruthy : Number → bool) now now' requestBody,
     (UsersRoute.POST numberTruthy now requestBody).1 =
     (UsersRoute.POST numberTruthy now' requestBody).1 ∧
     invalidated (UsersRoute.POST numberTruthy now requestBody) =
     invalidated (UsersRoute.POST numberTruthy now' requestBody)) ∧
  (∀ userId userId',
     userId = userId' →
     invalidated (Actions.deleteUser userId) =
     invalidated (Actions.deleteUser userId')).
Proof.
  split; [|split; [|split]].
  - by intros kind kind' id id' -> ->.
  - intros prevState prevState' formData.
    assert ((Actions.createUser prevState formData).1 =
            (Actions.createUser prevState' formData).1) as Ht by reflexivity.
    split; [exact Ht|]. unfold invalidated. by rewrite Ht.
  - intros Number numberTruthy now now' requestBody.
    assert ((UsersRoute.POST numberTruthy now requestBody).1 =
            (UsersRoute.POST numberTruthy now' requestBody).1) as Ht.
    { destruct (POST_cases numberTruthy now requestBody)
        as [(msg & code & H1 & _) | (n & e & r & H1 & _)];
      destruct (POST_cases numberTruthy now' requestBody)
        as [(msg' & code' & H2 & _) | (n' & e' & r' & H2 & _)];
      rewrite H1, H2; simpl; try reflexivity;
      revert H1 H2; unfold UsersRoute.POST;
      destruct (UsersRoute.readBody requestBody) as [[[a|] [c|]]|];
      try discriminate;
      destruct (Json.truthyValue numberTruthy (Some a)),
        (Json.truthyValue numberTruthy (Some c)); simpl;
      try discriminate; congruence. }
    split; [exact Ht|]. unfold invalidated. by rewrite Ht.
  - by intros userId userId' ->.
Qed.

Lemma invalidation_deterministic_witness :
  computeInvalidationPaths "users" (Some "42") =
  computeInvalidationPaths "users" (Some "42") ∧
  invalidated (UsersRoute.POST (λ n : Z, negb (n =? 0)) 1700000000000
                 (Some (Json.Obj [("name", Json.Str "Ann"); ("email", Json.Num 1)]))) =
  invalidated (UsersRoute.POST (λ n : Z, negb (n =? 0)) 1800000000000
                 (Some (Json.Obj [("name", Json.Str "Ann"); ("email", Json.Num 1)]))).
Proof.
  destruct invalidation_deterministic as (Hnotifier & _ & HPOST & _).
  split; [by apply Hnotifier | apply HPOST].
Defined.

(** C9: when the validation of [createUser] fails, because the name is
    missing or blank or because the email is missing or has no '@', and
    when [deleteUser] is given the empty user id, the action returns a
    state with [success] false and an error message, and revalidates no
    path: its trace has no effect at all. *)
Theorem validation_failure_revalidates_nothing
    (prevState : option Actions.ActionState) (formData : Actions.FormData) :
  ((Actions.get formData "name" = None ∨
    (∃ n, Actions.get formData "name" = Some n ∧ trim n = "")) ∨
   (Actions.get formData "email" = None ∨
    (∃ e, Actions.get formData "email" = Some e ∧ includes e "@" = false)) →
   (Actions.createUser prevState formData).1 = [] ∧
   invalidated (Actions.createUser prevState formData) = ∅ ∧
   Actions.success (Actions.createUser prevState formData).2 = false ∧
   is_Some (Actions.error (Actions.createUser prevState formData).2)) ∧
  ((Actions.deleteUser "").1 = [] ∧
   invalidated (Actions.deleteUser "") = ∅ ∧
   Actions.success (Actions.deleteUser "").2 = false ∧
   is_Some (Actions.error (Actions.deleteUser "").2)).
Proof.
  split; [|by repeat split; eauto].
  intros Hbad.
  destruct (createUser_cases prevState formData)
    as [(msg & -> & _) | (n & e & Hn & Ht & He & Hi & _)].
  { by repeat split; eauto. }
  exfalso. destruct Hbad as [[Hbad | (n' & Hbad & Hz)] | [Hbad | (e' & Hbad & Hz)]];
    congruence.
Qed.

Lemma validation_failure_revalidates_nothing_witness :
  (Actions.createUser None [("name", "   "); ("email", "ann@example.com")]).1 = [] ∧
  (Actions.createUser None [("name", "Ann"); ("email", "ann.example.com")]).1 = [] ∧
  (Actions.createUser None [("email", "ann@example.com")]).1 = [].
Proof.
  split; [|split].
  - refine (proj1 (proj1 (validation_failure_revalidates_nothing None
             [("name", "   "); ("email", "ann@example.com")]) _)).
    left. right. by exists "   ".
  - refine (proj1 (proj1 (validation_failure_revalidates_nothing None
             [("name", "Ann"); ("email", "ann.example.com")]) _)).
    right. right. by exists "ann.example.com".
  - refine (proj1 (proj1 (validation_failure_revalidates_nothing None
             [("email", "ann@example.com")]) _)).
    left. left. reflexivity.
Defined.

End Revalidation.

(** * Further properties of the code *)

(** ** String search *)

Section StringSearch.
Import Js.

Lemma app_cons (x : ascii) (a b : string) :
  String x a +:+ b = String x (a +:+ b).
Proof. reflexivity. Qed.

Lemma app_nil (b : string) : "" +:+ b = b.
Proof. reflexivity. Qed.

Lemma app_assoc_string (a b c : string) : (a +:+ b) +:+ c = a +:+ (b +:+ c).
Proof.
  induction a as [|x a IH]; [done|]. by rewrite !app_cons, IH.
Qed.

(** [pat] is a prefix of [s] exactly when [s] continues [pat]. *)
Lemma prefix_iff (pat s : string) :
  String.prefix pat s = true ↔ ∃ rest, s = pat +:+ rest.
Proof.
  revert s. induction pat as [|x pat IH]; intros s.
  - destruct s; (split; [intros _; eexists; reflexivity | done]).
  - destruct s as [|y s]; simpl.
    + split; [done | intros (rest & [=])].
    + destruct (Ascii.ascii_dec x y) as [-> | Hxy].
      * rewrite IH. split; intros (rest & H); exists rest.
        -- by rewrite app_cons, H.
        -- rewrite app_cons in H. by injection H.
      * split; [done|]. intros (rest & H). rewrite app_cons in H.
        injection H as H _. done.
Qed.

Lemma skip_app (a b : string) : skip (String.length a) (a +:+ b) = b.
Proof.
  induction a as [|x a IH]; [by destruct b|]. rewrite app_cons. exact IH.
Qed.

Lemma includes_nil (sub : string) :
  includes "" sub = String.prefix sub "" || false.
Proof. reflexivity. Qed.

Lemma includes_cons (x : ascii) (s sub : string) :
  includes (String x s) sub = String.prefix sub (String x s) || includes s sub.
Proof. reflexivity. Qed.

(** [includes] finds exactly the strings that occur somewhere. *)
Lemma includes_iff (s sub : string) :
  includes s sub = true ↔ ∃ before after, s = before +:+ sub +:+ after.
Proof.
  induction s as [|x s IH].
  - rewrite includes_nil, orb_false_r, prefix_iff. split.
    + intros (rest & H). by exists "", rest.
    + intros ([|y before] & after & H); [by exists after|].
      rewrite app_cons in H. done.
  - rewrite includes_cons, orb_true_iff, prefix_iff, IH. split.
    + intros [(rest & H) | (before & after & H)].
      * by exists "", rest.
      * exists (String x before), after. by rewrite app_cons, H.
    + intros ([|y before] & after & H).
      * left. by exists after.
      * right. rewrite app_cons in H. injection H as _ H.
        by exists before, after.
Qed.

Lemma removeFirst_cons (x : ascii) (s pat : string) :
  removeFirst (String x s) pat =
  if String.prefix pat (String x s) then skip (String.length pat) (String x s)
  else String x (removeFirst s pat).
Proof. reflexivity. Qed.

(** Cutting a leading pattern out leaves what follows it, whether or not
    the pattern occurs again later. *)
Lemma removeFirst_leading (pat rest : string) :
  removeFirst (pat +:+ rest) pat = rest.
Proof.
  assert (String.prefix pat (pat +:+ rest) = true) as Hp.
  { apply prefix_iff. by exists rest. }
  pose proof (skip_app pat rest) as Hs.
  destruct (pat +:+ rest) as [|x s].
  - unfold removeFirst. by rewrite Hp.
  - by rewrite removeFirst_cons, Hp.
Qed.

(** A pattern that does not occur is not cut out. *)
Lemma removeFirst_absent (s pat : string) :
  includes s pat = false → removeFirst s pat = s.
Proof.
  induction s as [|x s IH].
  - rewrite includes_nil, orb_false_r. simpl. by intros ->.
  - rewrite includes_cons, orb_false_iff, removeFirst_cons.
    intros [-> Hs]. by rewrite (IH Hs).
Qed.

End StringSearch.

(** ** The locale switcher *)

Section SwitchLocale.
Import Js LocaleSwitcher.

Lemma orElse_some (s d : string) :
  orElse (Some s) d = if decide (s = "") then d else s.
Proof.
  unfold orElse. destruct (decide (s = "")) as [-> | Hs]; [done|].
  by rewrite (proj2 (truthy_true s) Hs).
Qed.

Lemma switchLocale_leading (locale rest newLocale : string) :
  switchLocale locale (("/" +:+ locale) +:+ rest) newLocale =
  "/" +:+ newLocale +:+ orElse (Some rest) "/".
Proof. unfold switchLocale. by rewrite removeFirst_leading. Qed.

(** X1: on a pathname that starts with the current locale segment,
    [switchLocale] replaces that segment by the new locale and keeps
    everything after it as it is, also when the same segment occurs again
    further on; when nothing follows the segment, the new path ends in a
    slash. *)
Theorem switchLocale_leading_segment (locale rest newLocale : string) :
  switchLocale locale ("/" +:+ locale +:+ rest) newLocale =
  "/" +:+ newLocale +:+ (if decide (rest = "") then "/" else rest).
Proof.
  rewrite <- (app_assoc_string "/" locale rest), switchLocale_leading.
  by rewrite orElse_some.
Qed.

(** X2: on a pathname that starts with the current locale segment,
    switching to another locale and back restores the pathname, except
    that a pathname with nothing after the segment comes back with a
    trailing slash. *)
Theorem switchLocale_there_and_back (locale rest newLocale : string) :
  switchLocale newLocale
    (switchLocale locale ("/" +:+ locale +:+ rest) newLocale) locale =
  "/" +:+ locale +:+ (if decide (rest = "") then "/" else rest).
Proof.
  rewrite <- (app_assoc_string "/" locale rest), switchLocale_leading.
  rewrite <- (app_assoc_string "/" newLocale), switchLocale_leading.
  rewrite !orElse_some.
  destruct (decide (rest = "")) as [-> | Hr]; [done|].
  by rewrite decide_False.
Qed.

(** X3: on a pathname in which the current locale segment does not occur,
    [switchLocale] removes nothing and puts the new locale in front of the
    whole pathname, or of "/" when the pathname is empty. *)
Theorem switchLocale_without_segment (locale pathname newLocale : string) :
  includes pathname ("/" +:+ locale) = false →
  switchLocale locale pathname newLocale =
  "/" +:+ newLocale +:+ (if decide (pathname = "") then "/" else pathname).
Proof.
  intros Hp. unfold switchLocale.
  by rewrite (removeFirst_absent _ _ Hp), orElse_some.
Qed.

Lemma switchLocale_without_segment_witness :
  switchLocale "en" "/about" "de" = "/de/about".
Proof. apply (switchLocale_without_segment "en" "/about" "de"). reflexivity. Defined.

End SwitchLocale.

(** ** The locale tables against the brand table *)

Section LocaleTables.
Import Js Brands I18nRequest.

(** Splits a statement about the entries of a table into one goal for each
    entry. *)
Ltac each_entry :=
  repeat apply Forall_cons_2; [.. | apply Forall_nil_2]; simpl.

(** X4: the list of all locales that the middleware uses is exactly the
    union of the supported locales of the configured brands: every locale
    a brand supports is in it, and every locale in it is supported by some
    brand. *)
Theorem allLocales_union (l : string) :
  l ∈ I18nConfig.locales ↔
  ∃ k b, brands !! k = Some b ∧ l ∈ supportedLocales b.
Proof.
  split.
  - unfold I18nConfig.locales, I18nConfig.allLocales.
    rewrite !elem_of_cons, elem_of_nil.
    intros [-> | [-> | [-> | [-> | [-> | [-> | [-> | []]]]]]]].
    + exists "brand-a", brandA. split; [done | compute_done].
    + exists "brand-a", brandA. split; [done | compute_done].
    + exists "brand-a", brandA. split; [done | compute_done].
    + exists "brand-b", brandB. split; [done | compute_done].
    + exists "brand-b", brandB. split; [done | compute_done].
    + exists "brand-c", brandC. split; [done | compute_done].
    + exists "brand-c", brandC. split; [done | compute_done].
  - intros (k & b & Hk & Hl). revert k b Hk l Hl.
    apply (brands_forall
             (λ _ b, ∀ l, l ∈ supportedLocales b → l ∈ I18nConfig.locales)).
    each_entry; intros l; rewrite !elem_of_cons, elem_of_nil;
      intros [-> | [-> | [-> | []]]]; compute_done.
Qed.

(** X5: [localeConfig] has an entry for every configured brand, under the
    same key and in the same order as [brands], and the locales it
    describes for a brand are exactly that brand's supported locales, in
    the same order; so the switcher finds a name and a flag for every
    option it shows. *)
Theorem localeConfig_matches_brands :
  I18nConfig.localeConfig.*1 = brandEntries.*1 ∧
  ∀ k b, brands !! k = Some b →
    ∃ infos, (k, infos) ∈ I18nConfig.localeConfig ∧
             infos.*1 = supportedLocales b.
Proof.
  split; [reflexivity|].
  apply (brands_forall
           (λ k b, ∃ infos, (k, infos) ∈ I18nConfig.localeConfig ∧
                            infos.*1 = supportedLocales b)).
  each_entry; eexists.
  - split; [apply list_elem_of_here | reflexivity].
  - split; [apply list_elem_of_further, list_elem_of_here | reflexivity].
  - split; [do 2 apply list_elem_of_further; apply list_elem_of_here
           | reflexivity].
Qed.

Lemma localeConfig_matches_brands_witness :
  ∃ infos, ("brand-c", infos) ∈ I18nConfig.localeConfig ∧
           infos.*1 = ["en"; "ja"; "zh"].
Proof.
  apply (proj2 localeConfig_matches_brands "brand-c" brandC). reflexivity.
Defined.

(** X6: the brand table is total on [BrandId] and has no other key: every
    brand identifier has a record under its string, which carries that
    identifier, and every key is the string of a brand identifier. *)
Theorem brands_total :
  (∀ i, ∃ b, brands !! brandIdString i = Some b ∧ id b = i) ∧
  (∀ k, is_Some (brands !! k) → ∃ i, k = brandIdString i).
Proof.
  split.
  - intros [| |]; eexists; split; reflexivity.
  - intros k [b Hb]. revert k b Hb.
    apply (brands_forall (λ k _, ∃ i, k = brandIdString i)).
    each_entry; [by exists BrandA | by exists BrandB | by exists BrandC].
Qed.

Lemma brands_total_witness : ∃ i, "brand-b" = brandIdString i.
Proof. apply (proj2 brands_total "brand-b"). by eexists. Defined.

Lemma supported_truthy (k : string) (b : BrandConfig) (l : string) :
  brands !! k = Some b → l ∈ supportedLocales b → l ≠ "".
Proof.
  intros Hk. revert k b Hk l.
  apply (brands_forall (λ _ b, ∀ l, l ∈ supportedLocales b → l ≠ "")).
  each_entry; intros l; rewrite !elem_of_cons, elem_of_nil;
    intros [-> | [-> | [-> | []]]]; discriminate.
Qed.

Lemma brand_default_is_global (k : string) (b : BrandConfig) :
  brands !! k = Some b →
  defaultLocale b = I18nConfig.defaultLocale ∧
  I18nConfig.defaultLocale ∈ supportedLocales b.
Proof.
  revert k b.
  apply (brands_forall
           (λ _ b, defaultLocale b = I18nConfig.defaultLocale ∧
                   I18nConfig.defaultLocale ∈ supportedLocales b)).
  each_entry; (split; [reflexivity | compute_done]).
Qed.

(** X7: whatever configured brand is current, the path [RootPage]
    redirects to is the segment of that brand's default locale, and the
    request callback returns that locale unchanged. *)
Theorem rootPage_locale_kept (k : string) (b : BrandConfig) :
  brands !! k = Some b →
  RootPage.RootPage = "/" +:+ defaultLocale b ∧
  requestConfigLocale (Some k) (Some I18nConfig.defaultLocale) =
  Returns I18nConfig.defaultLocale.
Proof.
  intros Hk. destruct (brand_default_is_global k b Hk) as [Hd Hin]. split.
  - unfold RootPage.RootPage. by rewrite Hd.
  - rewrite requestConfigLocale_resolveLocale, (getCurrentBrand_lookup k b Hk).
    by apply resolveLocale_listed.
Qed.

Lemma rootPage_locale_kept_witness :
  RootPage.RootPage = "/" +:+ defaultLocale brandB ∧
  requestConfigLocale (Some "brand-b") (Some I18nConfig.defaultLocale) =
  Returns I18nConfig.defaultLocale.
Proof. apply (rootPage_locale_kept "brand-b"). reflexivity. Defined.

(** X8: under a configured brand the switcher offers that brand's
    supported locales, and the request callback returns each of them
    unchanged: choosing an option never falls back to another locale. *)
Theorem offered_locales_kept (k : string) (b : BrandConfig) (l : string) :
  brands !! k = Some b →
  LocaleSwitcher.supportedLocales (Some k) = Returns (Some (supportedLocales b)) ∧
  (l ∈ supportedLocales b →
   requestConfigLocale (Some k) (Some l) = Returns l).
Proof.
  intros Hk. split.
  - unfold LocaleSwitcher.supportedLocales.
    by rewrite (getCurrentBrand_lookup k b Hk).
  - intros Hl.
    rewrite requestConfigLocale_resolveLocale, (getCurrentBrand_lookup k b Hk).
    apply resolveLocale_listed; [by eapply supported_truthy | done].
Qed.

Lemma offered_locales_kept_witness :
  requestConfigLocale (Some "brand-c") (Some "ja") = Returns "ja".
Proof.
  refine (proj2 (offered_locales_kept "brand-c" brandC "ja" _) _);
    [reflexivity | compute_done].
Defined.

(** X9: on every brand record the callback is idempotent: requesting the
    locale it has returned returns that locale again, also when it is a
    default that the brand does not list. *)
Theorem resolveLocale_idempotent (b : BrandConfig) (requested : option string)
    (l : string) :
  resolveLocale requested (Record b) = Returns l →
  resolveLocale (Some l) (Record b) = Returns l.
Proof.
  intros H. rewrite resolveLocale_record in H. injection H as H.
  rewrite resolveLocale_record. f_equal.
  destruct (truthy l && arrayIncludes (supportedLocales b) l) eqn:Hl; [done|].
  subst l. destruct requested as [r|]; [|done].
  destruct (truthy r && arrayIncludes (supportedLocales b) r) eqn:Hr;
    [congruence | done].
Qed.

Lemma resolveLocale_idempotent_witness :
  resolveLocale (Some "en") (Record brandA) = Returns "en".
Proof.
  apply (resolveLocale_idempotent brandA (Some "pt") "en"). reflexivity.
Defined.

(** What [getCurrentBrand] returns, by the value of NEXT_PUBLIC_BRAND. *)
Lemma getCurrentBrand_cases (env : option string) :
  (∃ k b, env = Some k ∧ brands !! k = Some b ∧
          getCurrentBrand env = Record b) ∨
  (∃ k, env = Some k ∧ k ∈ objectPrototypeMembers ∧
        getCurrentBrand env = Inherited k) ∨
  ((∀ k, env = Some k → k ∉ objectPrototypeMembers) ∧
   getCurrentBrand env = Record brandA).
Proof.
  destruct env as [k|]; [|right; right; split; [by intros k [=] | done]].
  destruct (brands !! k) as [b|] eqn:Hk.
  { left. exists k, b. by rewrite (getCurrentBrand_lookup k b Hk). }
  destruct (decide (k ∈ objectPrototypeMembers)) as [Hp | Hp].
  - right. left. exists k. split; [done|]. split; [done|].
    by apply getCurrentBrand_inherited.
  - right. right. split; [by intros k' [= <-]|].
    by apply getCurrentBrand_unknown.
Qed.

(** X10: reading the locales of the current brand never throws. It
    yields [undefined] exactly when NEXT_PUBLIC_BRAND is one of the names
    inherited from [Object.prototype]; under a key of the brand table it
    yields the supported locales of the record stored under that key; and
    for every other value, unset and empty included, those of the brand-a
    record. *)
Theorem getBrandLocales_defined (env : option string) :
  ∃ o, I18nConfig.getBrandLocales env = Returns o ∧
       (o = None ↔ ∃ k, env = Some k ∧ k ∈ objectPrototypeMembers) ∧
       (∀ k b, env = Some k → brands !! k = Some b →
               o = Some (supportedLocales b)) ∧
       ((∀ k, env = Some k → brands !! k = None ∧ k ∉ objectPrototypeMembers) →
        o = Some (supportedLocales brandA)).
Proof.
  unfold I18nConfig.getBrandLocales.
  destruct (getCurrentBrand_cases env)
    as [(k & b & -> & Hk & Hb) | [(k & -> & Hp & Hb) | (Hp & Hb)]];
    rewrite Hb; simpl; eexists; (split; [reflexivity|]).
  - split; [|split].
    + split; [done|]. intros (k' & [= <-] & Hp).
      apply getCurrentBrand_inherited in Hp as [Hn _]. congruence.
    + intros k' b' [= <-] Hk'. congruence.
    + intros Hn. destruct (Hn k eq_refl) as [Hn' _]. congruence.
  - split; [|split].
    + split; [|done]. intros _. by exists k.
    + intros k' b' [= <-] Hk'.
      apply getCurrentBrand_inherited in Hp as [Hn _]. congruence.
    + intros Hn. by destruct (Hn k eq_refl) as [_ Hn'].
  - split; [|split].
    + split; [done|]. intros (k & Hk & Hin). destruct (Hp k Hk Hin).
    + intros k b -> Hk.
      rewrite (getCurrentBrand_lookup k b Hk) in Hb. by injection Hb as ->.
    + done.
Qed.

(** X11: the request callback throws exactly when NEXT_PUBLIC_BRAND is one
    of the names inherited from [Object.prototype] and the requested
    locale is a non-empty string; in every other case it returns a
    locale. *)
Theorem requestConfigLocale_throws_iff (env requested : option string) :
  requestConfigLocale env requested = Throws ↔
  (∃ k, env = Some k ∧ k ∈ objectPrototypeMembers) ∧
  (∃ l, requested = Some l ∧ l ≠ "").
Proof.
  rewrite requestConfigLocale_resolveLocale.
  destruct (getCurrentBrand_cases env)
    as [(k & b & -> & Hk & ->) | [(k & -> & Hp & ->) | (Hp & ->)]].
  - rewrite resolveLocale_record. split; [done|].
    intros [(k' & [= <-] & Hp) _].
    apply getCurrentBrand_inherited in Hp as [Hn _]. congruence.
  - unfold resolveLocale, needsFallback. simpl.
    destruct requested as [l|]; simpl.
    + destruct (truthy l) eqn:Hl; simpl.
      * apply truthy_true in Hl. split; [|done].
        intros _. split; [by exists k | by exists l].
      * apply truthy_false in Hl as ->. split; [done|].
        by intros [_ (l & [= <-] & Hl)].
    + split; [done | by intros [_ (l & [=] & _)]].
  - rewrite resolveLocale_record. split; [done|].
    intros [(k & Hk & Hin) _]. destruct (Hp k Hk Hin).
Qed.

End LocaleTables.

(** ** The server actions *)

Section ServerActions.
Import Js Effects.

Lemma trim_nonempty (n : string) : trim n ≠ "" → n ≠ "".
Proof. intros H ->. by apply H. Qed.

Lemma includes_nonempty (e sub : string) :
  sub ≠ "" → includes e sub = true → e ≠ "".
Proof. intros Hs He ->. by destruct sub. Qed.

(** X12: [createUser] succeeds exactly when the form has a name with a
    character that is not white space and an email with an '@' somewhere;
    it then returns the submitted name and email as they were sent, the
    name not trimmed, and greets the user by that name. *)
Theorem createUser_succeeds_iff (prevState : option Actions.ActionState)
    (formData : Actions.FormData) :
  (Actions.success (Actions.createUser prevState formData).2 = true ↔
   ∃ n before after,
     Actions.get formData "name" = Some n ∧ trim n ≠ "" ∧
     Actions.get formData "email" = Some (before +:+ "@" +:+ after)) ∧
  (∀ n e,
     Actions.success (Actions.createUser prevState formData).2 = true →
     Actions.get formData "name" = Some n →
     Actions.get formData "email" = Some e →
     Actions.data (Actions.createUser prevState formData).2 =
       Some {| Actions.name := n; Actions.email := e |} ∧
     Actions.message (Actions.createUser prevState formData).2 =
       Some ("User " +:+ n +:+ " created successfully!")).
Proof.
  destruct (createUser_cases prevState formData)
    as [(msg & -> & Hbad) | (n & e & Hn & Ht & He & Hi & ->)]; simpl.
  - split; [split; [done|] | done].
    intros (n & before & after & Hn & Ht & He).
    destruct Hbad as [[Hbad | (n' & Hbad & Hz)] | [Hbad | (e' & Hbad & Hz)]];
      try congruence.
    assert (includes e' "@" = true); [|congruence].
    apply includes_iff. exists before, after. congruence.
  - split.
    + split; [intros _ | done].
      apply includes_iff in Hi as (before & after & ->). by exists n, before, after.
    + intros n' e' _ Hn' He'. by simplify_eq.
Qed.

Lemma createUser_succeeds_iff_witness :
  Actions.data
    (Actions.createUser None [("name", " Ann "); ("email", "@")]).2 =
  Some {| Actions.name := " Ann "; Actions.email := "@" |}.
Proof.
  apply (proj2 (createUser_succeeds_iff None
                  [("name", " Ann "); ("email", "@")]) " Ann " "@");
    reflexivity.
Defined.

(** X13: the state an action returns has either a message or an error,
    never both and never neither: a success has a message and no error, a
    failure an error and no message; [createUser] attaches the user data
    exactly on success and [deleteUser] never attaches any. *)
Theorem action_state_shape (prevState : option Actions.ActionState)
    (formData : Actions.FormData) (userId : string) :
  let created := (Actions.createUser prevState formData).2 in
  let deleted := (Actions.deleteUser userId).2 in
  (if Actions.success created
   then is_Some (Actions.message created) ∧ Actions.error created = None ∧
        is_Some (Actions.data created)
   else Actions.message created = None ∧ is_Some (Actions.error created) ∧
        Actions.data created = None) ∧
  (if Actions.success deleted
   then is_Some (Actions.message deleted) ∧ Actions.error deleted = None
   else Actions.message deleted = None ∧ is_Some (Actions.error deleted)) ∧
  Actions.data deleted = None.
Proof.
  simpl. split.
  - destruct (createUser_cases prevState formData)
      as [(msg & -> & _) | (n & e & _ & _ & _ & _ & ->)]; simpl; eauto.
  - unfold Actions.deleteUser. destruct (truthy userId); simpl; eauto.
Qed.

(** X14: [createUser] checks the name before the email: a missing or
    blank name is reported as "Name is required" whatever the email is,
    and "Valid email is required" is reported only for a form whose name
    passed. *)
Theorem createUser_checks_name_first (prevState : option Actions.ActionState)
    (formData : Actions.FormData) :
  ((Actions.get formData "name" = None ∨
    ∃ n, Actions.get formData "name" = Some n ∧ trim n = "") →
   Actions.error (Actions.createUser prevState formData).2 =
   Some "Name is required") ∧
  (Actions.error (Actions.createUser prevState formData).2 =
   Some "Valid email is required" →
   ∃ n, Actions.get formData "name" = Some n ∧ trim n ≠ "").
Proof.
  unfold Actions.createUser.
  destruct (Actions.get formData "name") as [n|]; [|split; [done | done]].
  destruct (truthy n) eqn:Hn; simpl.
  2:{ split; [done | done]. }
  destruct (String.length (trim n) =? 0)%nat eqn:Ht; [split; [done | done]|].
  assert (trim n ≠ "") as Hne.
  { intros Hz. apply length_zero in Hz. congruence. }
  split; [|by exists n].
  intros [[=] | (n' & [= <-] & Hz)]. done.
Qed.

Lemma createUser_checks_name_first_witness :
  Actions.error (Actions.createUser None [("email", "no-at-sign")]).2 =
  Some "Name is required".
Proof.
  apply (proj1 (createUser_checks_name_first None [("email", "no-at-sign")])).
  left. reflexivity.
Defined.

End ServerActions.

(** ** The REST handlers *)

Section RestHandlers.
Import Js Effects.
Context {Number : Type} (numberTruthy : Number → bool).

#[local] Arguments Json.truthyValue : simpl never.

Lemma invalidated_nil {V A : Type} (a : A) :
  invalidated (([] : list (Effect V)), a) = ∅.
Proof. reflexivity. Qed.

Lemma invalidated_nonempty {V A : Type} (t : list (Effect V)) (a : A)
    (p : string) (ps : list string) :
  revalidations t = p :: ps → invalidated (t, a) ≠ ∅.
Proof.
  intros Ht. unfold invalidated. simpl. rewrite Ht. simpl.
  intros H. apply (not_elem_of_empty (C := gset string) p).
  rewrite <- H. apply elem_of_union_l, elem_of_singleton. reflexivity.
Qed.

(** What [POST] answers, by the request body. *)
Lemma POST_by_body (now : Z) (requestBody : option (Json.Value Number)) :
  let r := UsersRoute.POST numberTruthy now requestBody in
  match requestBody with
  | None | Some Json.Null => r = ([], UsersRoute.failed "Failed to create user" 500)
  | Some body =>
      ∃ name email,
        Json.property body "name" = Returns name ∧
        Json.property body "email" = Returns email ∧
        if Json.truthyValue numberTruthy name && Json.truthyValue numberTruthy email
        then ∃ n e, name = Some n ∧ email = Some e ∧
             r = ([ConsoleLog "Creating user via API:" [("name", n); ("email", e)];
                   SetTimeout 500; RevalidatePath "/users"; RevalidatePath "/"],
                  {| UsersRoute.status := 201; UsersRoute.success := true;
                     UsersRoute.message := Some "User created successfully";
                     UsersRoute.error := None;
                     UsersRoute.data :=
                       Some {| UsersRoute.id := pretty now;
                               UsersRoute.name := n; UsersRoute.email := e |} |})
        else r = ([], UsersRoute.failed "Name and email are required" 400)
  end.
Proof.
  destruct requestBody as [body|]; [|reflexivity].
  destruct body as [| b | n | s | items | members]; try reflexivity;
    try (simpl; exists None, None; done).
  simpl. exists (Json.member members "name"), (Json.member members "email").
  split; [done|]. split; [done|].
  unfold UsersRoute.POST, UsersRoute.readBody. simpl.
  destruct (Json.member members "name") as [n|],
    (Json.member members "email") as [e|]; simpl; try done.
  - destruct (Json.truthyValue numberTruthy (Some n)) eqn:Hn,
      (Json.truthyValue numberTruthy (Some e)) eqn:He; simpl; try done.
    by exists n, e.
  - by rewrite andb_false_r.
Qed.

(** X15: [POST] answers 500 exactly when the request body is not JSON or
    is the JSON value null, and it answers 400 for every JSON array,
    string, number and boolean, whose [name] and [email] are undefined. *)
Theorem POST_error_codes (now : Z) (requestBody : option (Json.Value Number)) :
  (UsersRoute.status (UsersRoute.POST numberTruthy now requestBody).2 = 500 ↔
   requestBody = None ∨ requestBody = Some Json.Null) ∧
  ((∃ items, requestBody = Some (Json.Arr items)) ∨
   (∃ s, requestBody = Some (Json.Str s)) ∨
   (∃ n, requestBody = Some (Json.Num n)) ∨
   (∃ b, requestBody = Some (Json.Bool b)) →
   UsersRoute.status (UsersRoute.POST numberTruthy now requestBody).2 = 400).
Proof.
  pose proof (POST_by_body now requestBody) as H. simpl in H. split.
  - destruct requestBody as [[| b | n | s | items | members]|];
      try (rewrite H; simpl; split; [auto | done]);
      destruct H as (name & email & _ & _ & H);
      (destruct (_ && _);
       [destruct H as (n' & e' & _ & _ & ->) | rewrite H]; simpl;
       (split; [done | by intros [[=] | [=]]])).
  - intros [(items & ->) | [(s & ->) | [(n & ->) | (b & ->)]]]; reflexivity.
Qed.

(** X16: the object [POST] hands to [NextResponse.json] is of one of two
    shapes: with status 201 it has [success] true, a message, no error and
    the created user, whose [name] and [email] are the values parsed from
    the body, of whatever JSON type, and whose [id] is the decimal of
    [Date.now()]; with status 400 or 500 it has [success] false, an error
    and neither message nor user. *)
Theorem POST_result_shape (now : Z) (requestBody : option (Json.Value Number)) :
  let r := (UsersRoute.POST numberTruthy now requestBody).2 in
  (UsersRoute.status r = 201 ∧ UsersRoute.success r = true ∧
   is_Some (UsersRoute.message r) ∧ UsersRoute.error r = None ∧
   ∃ body n e,
     requestBody = Some body ∧
     Json.property body "name" = Returns (Some n) ∧
     Json.property body "email" = Returns (Some e) ∧
     UsersRoute.data r =
       Some {| UsersRoute.id := pretty now;
               UsersRoute.name := n; UsersRoute.email := e |}) ∨
  ((UsersRoute.status r = 400 ∨ UsersRoute.status r = 500) ∧
   UsersRoute.success r = false ∧ UsersRoute.message r = None ∧
   is_Some (UsersRoute.error r) ∧ UsersRoute.data r = None).
Proof.
  pose proof (POST_by_body now requestBody) as H. simpl in *.
  destruct requestBody as [body|]; [|rewrite H; right; simpl; eauto 6].
  destruct body as [| b | n | s | items | members];
    try (rewrite H; right; simpl; eauto 6; fail);
    destruct H as (name & email & Hn & He & H);
    (destruct (_ && _);
     [destruct H as (n' & e' & -> & -> & ->); left; simpl; eauto 12
     | rewrite H; right; simpl; eauto 6]).
Qed.

Lemma POST_data_id (now : Z) (requestBody : option (Json.Value Number))
    (u : UsersRoute.CreatedUser) :
  UsersRoute.data (UsersRoute.POST numberTruthy now requestBody).2 = Some u →
  UsersRoute.id u = pretty now.
Proof.
  destruct (POST_cases numberTruthy now requestBody)
    as [(msg & code & -> & _) | (n & e & r & Hr & _)]; [done|].
  revert Hr. unfold UsersRoute.POST.
  destruct (UsersRoute.readBody requestBody) as [[[a|] [c|]]|]; try done.
  destruct (Json.truthyValue numberTruthy (Some a)),
    (Json.truthyValue numberTruthy (Some c)); simpl; try done.
  intros [= _ _ <-]. simpl. by intros [= <-].
Qed.

(** X17: the id [POST] gives a created user depends on the clock alone:
    two requests answered 201 get the same id exactly when [Date.now()]
    returned the same value for both, whatever their bodies. *)
Theorem POST_id_is_clock (now now' : Z)
    (requestBody requestBody' : option (Json.Value Number))
    (u u' : UsersRoute.CreatedUser) :
  UsersRoute.data (UsersRoute.POST numberTruthy now requestBody).2 = Some u →
  UsersRoute.data (UsersRoute.POST numberTruthy now' requestBody').2 = Some u' →
  UsersRoute.id u = UsersRoute.id u' ↔ now = now'.
Proof.
  intros Hu%POST_data_id Hu'%POST_data_id. rewrite Hu, Hu'.
  split; [apply (inj pretty) | by intros ->].
Qed.

(** X18: among the handlers of users, revalidation happens only after a
    mutation that went through: [POST] marks paths stale exactly when it
    answers 201, [createUser] and [deleteUser] exactly when they succeed,
    and the two [GET] handlers never do. *)
Theorem revalidation_only_on_success (now : Z)
    (requestBody : option (Json.Value Number))
    (prevState : option Actions.ActionState) (formData : Actions.FormData)
    (userId nowISO : string) :
  (invalidated (UsersRoute.POST numberTruthy now requestBody) ≠ ∅ ↔
   UsersRoute.status (UsersRoute.POST numberTruthy now requestBody).2 = 201) ∧
  (invalidated (Actions.createUser prevState formData) ≠ ∅ ↔
   Actions.success (Actions.createUser prevState formData).2 = true) ∧
  (invalidated (Actions.deleteUser userId) ≠ ∅ ↔
   Actions.success (Actions.deleteUser userId).2 = true) ∧
  invalidated UsersRoute.GET = ∅ ∧
  invalidated (UserRoute.GET nowISO userId) = ∅.
Proof.
  split; [|split; [|split; [|split; reflexivity]]].
  - destruct (POST_cases numberTruthy now requestBody)
      as [(msg & code & -> & Hc) | (n & e & r & -> & Hs & _)].
    + rewrite invalidated_nil. simpl. split; [done|].
      by destruct Hc as [-> | ->].
    + split; [done|]. intros _. by eapply invalidated_nonempty.
  - destruct (createUser_cases prevState formData)
      as [(msg & -> & _) | (n & e & _ & _ & _ & _ & ->)].
    + by rewrite invalidated_nil.
    + split; [done|]. intros _. by eapply invalidated_nonempty.
  - unfold Actions.deleteUser. destruct (truthy userId).
    + split; [done|]. intros _. by eapply invalidated_nonempty.
    + split; [|simpl; done]. intros H. exfalso. apply H. reflexivity.
Qed.

End RestHandlers.

Section HandlersCompared.
Import Js Effects.

(** X19: the REST handler accepts whatever the server action accepts: when
    [createUser] succeeds on a form, [POST] answers 201 to the body made of
    the same name and email as JSON strings, and both revalidate the same
    paths. *)
Theorem createUser_implies_POST {Number : Type} (numberTruthy : Number → bool)
    (now : Z) (prevState : option Actions.ActionState)
    (formData : Actions.FormData) (n e : string) :
  Actions.get formData "name" = Some n →
  Actions.get formData "email" = Some e →
  Actions.success (Actions.createUser prevState formData).2 = true →
  let response :=
    UsersRoute.POST numberTruthy now
      (Some (Json.Obj [("name", Json.Str n); ("email", Json.Str e)])) in
  UsersRoute.status response.2 = 201 ∧
  revalidations response.1 =
  revalidations (Actions.createUser prevState formData).1.
Proof.
  intros Hn He.
  destruct (createUser_cases prevState formData)
    as [(msg & -> & _) | (n' & e' & Hn' & Ht & He' & Hi & ->)]; [done|].
  intros _. simplify_eq.
  apply trim_nonempty, truthy_true in Ht.
  apply includes_nonempty, truthy_true in Hi; [|done].
  unfold UsersRoute.POST. simpl. by rewrite Ht, Hi.
Qed.

Lemma createUser_implies_POST_witness :
  UsersRoute.status
    (UsersRoute.POST (λ z : Z, negb (z =? 0)) 1700000000000
       (Some (Json.Obj [("name", Json.Str "Ann");
                        ("email", Json.Str "ann@example.com")]))).2 = 201.
Proof.
  apply (createUser_implies_POST (λ z : Z, negb (z =? 0)) 1700000000000 None
           [("name", "Ann"); ("email", "ann@example.com")]
           "Ann" "ann@example.com"); reflexivity.
Defined.

(** X20: [POST] is laxer than [createUser]: it answers 201 to every body
    whose name and email are non-empty strings; a name of white space only
    or an email without '@' passes it, while [createUser] rejects the form
    with that name and email. *)
Theorem POST_laxer_than_createUser {Number : Type}
    (numberTruthy : Number → bool) (now : Z)
    (prevState : option Actions.ActionState) (n e : string) :
  n ≠ "" → e ≠ "" →
  UsersRoute.status
    (UsersRoute.POST numberTruthy now
       (Some (Json.Obj [("name", Json.Str n); ("email", Json.Str e)]))).2 = 201 ∧
  (trim n = "" ∨ includes e "@" = false →
   Actions.success
     (Actions.createUser prevState [("name", n); ("email", e)]).2 = false).
Proof.
  intros Hn%truthy_true He%truthy_true. split.
  - unfold UsersRoute.POST. simpl. by rewrite Hn, He.
  - intros Hbad.
    destruct (createUser_cases prevState [("name", n); ("email", e)])
      as [(msg & -> & _) | (n' & e' & Hn' & Ht & He' & Hi & _)]; [done|].
    compute in Hn', He'. simplify_eq. destruct Hbad; congruence.
Qed.

Lemma POST_laxer_than_createUser_witness :
  UsersRoute.status
    (UsersRoute.POST (λ z : Z, negb (z =? 0)) 0
       (Some (Json.Obj [("name", Json.Str "   ");
                        ("email", Json.Str "no-at-sign")]))).2 = 201 ∧
  Actions.success
    (Actions.createUser None [("name", "   "); ("email", "no-at-sign")]).2 = false.
Proof.
  destruct (POST_laxer_than_createUser (λ z : Z, negb (z =? 0)) 0 None
              "   " "no-at-sign") as [H1 H2]; [discriminate | discriminate |].
  split; [exact H1 | apply H2; by left].
Defined.

(** X21: for a non-empty user id the action [deleteUser] and the route
    [DELETE] mark the same set of paths stale, in a different order of
    calls; for the empty id they differ: the action rejects it without
    any effect, the route does not validate and revalidates "/users",
    "/users/" and "/". *)
Theorem deleteUser_against_DELETE (userId : string) :
  (userId ≠ "" →
   invalidated (Actions.deleteUser userId) = invalidated (UserRoute.DELETE userId) ∧
   revalidations (Actions.deleteUser userId).1 ≡ₚ
   revalidations (UserRoute.DELETE userId).1 ∧
   revalidations (Actions.deleteUser userId).1 ≠
   revalidations (UserRoute.DELETE userId).1) ∧
  (Actions.deleteUser "").1 = [] ∧
  revalidations (UserRoute.DELETE "").1 = ["/users"; "/users/"; "/"] ∧
  UserRoute.status (UserRoute.DELETE userId).2 = 200.
Proof.
  split; [|done].
  intros Hu. rewrite (invalidated_deleteUser userId Hu), invalidated_DELETE.
  split; [done|]. rewrite (deleteUser_trace userId Hu). simpl. split.
  - apply Permutation_skip, Permutation_swap.
  - by intros [=].
Qed.

Lemma deleteUser_against_DELETE_witness :
  invalidated (Actions.deleteUser "7") = invalidated (UserRoute.DELETE "7").
Proof.
  apply (proj1 (deleteUser_against_DELETE "7")). discriminate.
Defined.

End HandlersCompared.

Lemma POST_error_codes_witness :
  UsersRoute.status
    (UsersRoute.POST (λ n : Z, negb (n =? 0)) 0 (Some (Json.Arr []))).2 = 400.
Proof.
  apply (proj2 (POST_error_codes (λ n : Z, negb (n =? 0)) 0 (Some (Json.Arr [])))).
  left. by exists [].
Defined.

Lemma POST_id_is_clock_witness :
  let u : @UsersRoute.CreatedUser Z :=
    {| UsersRoute.id := "5"; UsersRoute.name := Json.Str "a";
       UsersRoute.email := Json.Str "b" |} in
  let u' : @UsersRoute.CreatedUser Z :=
    {| UsersRoute.id := "5"; UsersRoute.name := Json.Str "c";
       UsersRoute.email := Json.Num 1 |} in
  UsersRoute.id u = UsersRoute.id u' ↔ 5 = 5.
Proof.
  intros u u'.
  apply (POST_id_is_clock (λ n : Z, negb (n =? 0)) 5 5
           (Some (Json.Obj [("name", Json.Str "a"); ("email", Json.Str "b")]))
           (Some (Json.Obj [("name", Json.Str "c"); ("email", Json.Num 1)]))
           u u'); reflexivity.
Defined.

Lemma allLocales_union_witness : "ja" ∈ I18nConfig.locales.
Proof.
  apply (proj2 (allLocales_union "ja")).
  exists "brand-c", Brands.brandC. split; [reflexivity | compute_done].
Defined.

Lemma getBrandLocales_defined_witness :
  ∃ o, I18nConfig.getBrandLocales (Some "toString") = Js.Returns o ∧ o = None.
Proof.
  destruct (getBrandLocales_defined (Some "toString")) as (o & Ho & Hiff & _).
  exists o. split; [exact Ho|].
  apply Hiff. exists "toString". split; [reflexivity | compute_done].
Defined.

Lemma requestConfigLocale_throws_iff_witness :
  I18nRequest.requestConfigLocale (Some "valueOf") (Some "en") = Js.Throws.
Proof.
  apply (proj2 (requestConfigLocale_throws_iff (Some "valueOf") (Some "en"))).
  split.
  - exists "valueOf". split; [reflexivity | compute_done].
  - exists "en". split; [reflexivity | discriminate].
Defined.

Lemma revalidation_only_on_success_witness :
  Effects.invalidated
    (UsersRoute.POST (λ n : Z, negb (n =? 0)) 0
       (Some (Json.Obj [("name", Json.Str "Ann"); ("email", Json.Bool true)])))
  ≠ ∅.
Proof.
  refine (proj2 (proj1 (revalidation_only_on_success (λ n : Z, negb (n =? 0)) 0
            (Some (Json.Obj [("name", Json.Str "Ann"); ("email", Json.Bool true)]))
            None [] "" "")) _).
  reflexivity.
Defined.
